(** * release: the version model and the release pipeline

    A shallow embedding of [main.go] of the [release] utility, and proofs
    about it.

    Go strings are byte sequences and are modelled as [string], one [ascii]
    per byte; runes are code points in [Z].  Go's [int] is taken to be the
    64-bit two's-complement integer of the usual build targets and is
    modelled as [Z], with the wrap-around of its arithmetic written out.
    The functions of Go's standard library that [main.go] calls are
    modelled first, each in a module named after its package, as far as
    [main.go] uses them (base 10, one-byte separators).  The method
    [String] of [semver] is [String_] here. *)

From Stdlib Require Import ZArith List String Ascii Bool Lia.
Import ListNotations.

Local Open Scope string_scope.
Local Open Scope Z_scope.

(** ** Bytes and strings *)

Definition byte_val (c : ascii) : Z := Z.of_N (N_of_ascii c).
Definition byte_of (z : Z) : ascii := ascii_of_N (Z.to_N z).

(** [s[n:]] and [s[:n]] for an index within bounds. *)
Fixpoint drop (n : nat) (s : string) : string :=
  match n, s with
  | O, _ => s
  | S k, String _ t => drop k t
  | S _, EmptyString => EmptyString
  end.

Fixpoint take (n : nat) (s : string) : string :=
  match n, s with
  | O, _ => EmptyString
  | S k, String c t => String c (take k t)
  | S _, EmptyString => EmptyString
  end.

Definition is_empty (s : string) : bool :=
  match s with EmptyString => true | _ => false end.

Definition LF : ascii := "010"%char.

(** ** Integer ranges *)

Definition maxUint64 : Z := 2 ^ 64 - 1.
Definition maxInt64 : Z := 2 ^ 63 - 1.
Definition minInt64 : Z := - 2 ^ 63.

Definition wrapU64 (z : Z) : Z := z mod 2 ^ 64.
(** Go's [int] arithmetic: results are reduced into the signed 64-bit range. *)
Definition wrapInt (z : Z) : Z := (z + 2 ^ 63) mod 2 ^ 64 - 2 ^ 63.

(** ** Errors *)

Inductive numErrKind := ErrSyntax | ErrRange.

Inductive error :=
| NumError (func : string) (num : string) (kind : numErrKind)
| errInvalidSemver
| errorsNew (msg : string)
| ExitError (msg : string)
| PathError (msg : string)
| ScanError (msg : string).

(** ** package strings *)

Module strings.

(** Cut [s] at the first occurrence of the byte [sep]. *)
Fixpoint Cut (s : string) (sep : ascii) : option (string * string) :=
  match s with
  | EmptyString => None
  | String c t =>
      if Ascii.eqb c sep then Some (EmptyString, t)
      else match Cut t sep with
           | Some (a, b) => Some (String c a, b)
           | None => None
           end
  end.

(** [genSplit] with [cuts] separators still allowed: [SplitN s sep n] for
    [n > 0] performs at most [n - 1] cuts and leaves the rest unsplit. *)
Fixpoint genSplit (cuts : nat) (s : string) (sep : ascii) : list string :=
  match cuts with
  | O => [s]
  | S k => match Cut s sep with
           | Some (a, b) => a :: genSplit k b sep
           | None => [s]
           end
  end.

Definition SplitN (s : string) (sep : ascii) (n : nat) : list string :=
  match n with
  | O => []
  | S k => genSplit k s sep
  end.

(** [Split s sep] cuts at every separator; a string of length [l] holds at
    most [l] of them. *)
Definition Split (s : string) (sep : ascii) : list string :=
  genSplit (String.length s) s sep.

Fixpoint HasSuffix1 (s : string) (c : ascii) : bool :=
  match s with
  | EmptyString => false
  | String d EmptyString => Ascii.eqb d c
  | String _ t => HasSuffix1 t c
  end.

(** [TrimSuffix s suffix] for a one-byte suffix. *)
Definition TrimSuffix (s : string) (suffix : ascii) : string :=
  if HasSuffix1 s suffix then take (String.length s - 1) s else s.

End strings.

(** ** package unicode/utf8 and the [range] clause over a string *)

Module utf8.

Definition RuneError : Z := 65533.

Definition between (lo hi b : Z) : bool := (lo <=? b) && (b <=? hi).

Definition cont (b : Z) : Z := Z.land b 63.

(** Accepted range of the second byte, by first byte. *)
Definition second_range (b0 : Z) : Z * Z :=
  if b0 =? 224 then (160, 191)
  else if b0 =? 237 then (128, 159)
  else if b0 =? 240 then (144, 191)
  else if b0 =? 244 then (128, 143)
  else (128, 191).

(** First rune of [s] and its width in bytes; an invalid or truncated
    encoding decodes to [(RuneError, 1)], the empty string to
    [(RuneError, 0)]. *)
Definition DecodeRuneInString (s : string) : Z * nat :=
  match s with
  | EmptyString => (RuneError, 0%nat)
  | String c0 t =>
      let b0 := byte_val c0 in
      if b0 <? 128 then (b0, 1%nat)
      else if between 194 223 b0 then
        match t with
        | String c1 _ =>
            let b1 := byte_val c1 in
            if between 128 191 b1
            then (Z.lor (Z.shiftl (Z.land b0 31) 6) (cont b1), 2%nat)
            else (RuneError, 1%nat)
        | _ => (RuneError, 1%nat)
        end
      else if between 224 239 b0 then
        match t with
        | String c1 (String c2 _) =>
            let b1 := byte_val c1 in
            let b2 := byte_val c2 in
            let (lo, hi) := second_range b0 in
            if between lo hi b1 && between 128 191 b2
            then (Z.lor (Z.shiftl (Z.land b0 15) 12)
                    (Z.lor (Z.shiftl (cont b1) 6) (cont b2)), 3%nat)
            else (RuneError, 1%nat)
        | _ => (RuneError, 1%nat)
        end
      else if between 240 244 b0 then
        match t with
        | String c1 (String c2 (String c3 _)) =>
            let b1 := byte_val c1 in
            let b2 := byte_val c2 in
            let b3 := byte_val c3 in
            let (lo, hi) := second_range b0 in
            if between lo hi b1 && between 128 191 b2 && between 128 191 b3
            then (Z.lor (Z.shiftl (Z.land b0 7) 18)
                    (Z.lor (Z.shiftl (cont b1) 12)
                       (Z.lor (Z.shiftl (cont b2) 6) (cont b3))), 4%nat)
            else (RuneError, 1%nat)
        | _ => (RuneError, 1%nat)
        end
      else (RuneError, 1%nat)
  end.

(** The iterations of [for i, r := range s]: byte index and rune, in
    order.  [skip] counts the bytes still covered by the previous rune. *)
Fixpoint rangeFrom (s : string) (i : nat) (skip : nat) : list (nat * Z) :=
  match s with
  | EmptyString => []
  | String _ t =>
      match skip with
      | S k => rangeFrom t (S i) k
      | O => let (r, w) := DecodeRuneInString s in
             (i, r) :: rangeFrom t (S i) (Nat.pred w)
      end
  end.

Definition range (s : string) : list (nat * Z) := rangeFrom s 0 0.

Definition ValidRune (r : Z) : bool :=
  between 0 55295 r || between 57344 1114111 r.

Definition tx (z : Z) : ascii := byte_of (Z.lor 128 (Z.land z 63)).

(** UTF-8 encoding of one rune; what is not a valid code point is encoded
    as [RuneError]. *)
Definition EncodeRune (r0 : Z) : string :=
  let r := if ValidRune r0 then r0 else RuneError in
  if r <? 128 then String (byte_of r) EmptyString
  else if r <? 2048 then
    String (byte_of (Z.lor 192 (Z.shiftr r 6))) (String (tx r) EmptyString)
  else if r <? 65536 then
    String (byte_of (Z.lor 224 (Z.shiftr r 12)))
      (String (tx (Z.shiftr r 6)) (String (tx r) EmptyString))
  else
    String (byte_of (Z.lor 240 (Z.shiftr r 18)))
      (String (tx (Z.shiftr r 12))
         (String (tx (Z.shiftr r 6)) (String (tx r) EmptyString))).

(** The conversion [string(rs)] of a rune slice. *)
Fixpoint string_of_runes (rs : list Z) : string :=
  match rs with
  | [] => EmptyString
  | r :: t => EncodeRune r ++ string_of_runes t
  end.

End utf8.

(** ** package strconv *)

Module strconv.

Definition is_digit (c : ascii) : bool :=
  (48 <=? byte_val c) && (byte_val c <=? 57).

(** The digit loop of [ParseUint s 10 64]: [n] is the value so far.  The
    result is the value and the error kind, if any. *)
Fixpoint parseUintLoop (s : string) (n : Z) : Z * option numErrKind :=
  match s with
  | EmptyString => (n, None)
  | String c t =>
      if negb (is_digit c) then (0, Some ErrSyntax)
      else
        let d := byte_val c - 48 in
        if maxUint64 / 10 + 1 <=? n then (maxUint64, Some ErrRange)
        else
          let n10 := wrapU64 (n * 10) in
          let n1 := wrapU64 (n10 + d) in
          if (n1 <? n10) || (maxUint64 <? n1) then (maxUint64, Some ErrRange)
          else parseUintLoop t n1
  end.

Definition ParseUint (s : string) : Z * option numErrKind :=
  match s with
  | EmptyString => (0, Some ErrSyntax)
  | _ => parseUintLoop s 0
  end.

(** [ParseInt s 10 64]. *)
Definition ParseInt (s : string) : Z * option error :=
  match s with
  | EmptyString => (0, Some (NumError "ParseInt" s ErrSyntax))
  | String c t =>
      let '(neg, digits) :=
        if Ascii.eqb c "+" then (false, t)
        else if Ascii.eqb c "-" then (true, t)
        else (false, s) in
      match ParseUint digits with
      | (_, Some ErrSyntax) => (0, Some (NumError "ParseInt" s ErrSyntax))
      | (un, _) =>
          let cutoff := 2 ^ 63 in
          if negb neg && (cutoff <=? un)
          then (cutoff - 1, Some (NumError "ParseInt" s ErrRange))
          else if neg && (cutoff <? un)
          then (- cutoff, Some (NumError "ParseInt" s ErrRange))
          else (if neg then - un else un, None)
      end
  end.

(** Decimal digits of a non-negative number, most significant first,
    prepended to [acc]; [fuel] bounds the number of digits. *)
Fixpoint fmtBits (fuel : nat) (u : Z) (acc : string) : string :=
  match fuel with
  | O => acc
  | S f =>
      if u <? 10 then String (byte_of (48 + u)) acc
      else fmtBits f (u / 10) (String (byte_of (48 + u mod 10)) acc)
  end.

(** [FormatInt i 10], which is what the verb [%d] prints for an [int]. *)
Definition FormatInt (i : Z) : string :=
  if i <? 0 then String "-" (fmtBits 20 (- i) EmptyString)
  else fmtBits 20 i EmptyString.

End strconv.

(** ** package main: versions *)

(** [type version uint] with the constants [patch], [minor], [major]
    numbered from 1 ([iota + 1]). *)
Module version.
Definition t := N.
Definition patch : t := 1%N.
Definition minor : t := 2%N.
Definition major : t := 3%N.
End version.

Record semver := mkSemver {
  major : Z;
  minor : Z;
  patch : Z;
  prerelease : string;
  build : string
}.

(** The zero value of [semver] ([var sem semver]). *)
Definition zeroSemver : semver := mkSemver 0 0 0 "" "".

Definition set_major (sem : semver) (n : Z) : semver :=
  mkSemver n (minor sem) (patch sem) (prerelease sem) (build sem).
Definition set_minor (sem : semver) (n : Z) : semver :=
  mkSemver (major sem) n (patch sem) (prerelease sem) (build sem).
Definition set_patch (sem : semver) (n : Z) : semver :=
  mkSemver (major sem) (minor sem) n (prerelease sem) (build sem).
Definition set_prerelease (sem : semver) (s : string) : semver :=
  mkSemver (major sem) (minor sem) (patch sem) s (build sem).
Definition set_build (sem : semver) (s : string) : semver :=
  mkSemver (major sem) (minor sem) (patch sem) (prerelease sem) s.

(** What a call of [parseSemver] does: it returns the pair [(sem, err)], or
    it panics. *)
Inductive outcome :=
| Return (sem : semver) (err : option error)
| Panic (msg : string).

Definition is_digit_rune (r : Z) : bool := (48 <=? r) && (r <=? 57).

(** The inner loop on the third part: the byte index of the first rune that
    is not a decimal digit. *)
Fixpoint firstNonDigit (its : list (nat * Z)) : option nat :=
  match its with
  | [] => None
  | (j, r) :: rest => if negb (is_digit_rune r) then Some j else firstNonDigit rest
  end.

(** Third part and tail after the inner loop. *)
Definition splitTail (part : string) : string * string :=
  match firstNonDigit (utf8.range part) with
  | Some j => (take j part, drop j part)
  | None => (part, EmptyString)
  end.

(** The loop [for i, part := range parts], from index [i] on.  [inl] is the
    early [return sem, err]. *)
Fixpoint parseParts (i : nat) (parts : list string) (sem : semver) (tail : string)
  : (semver * error) + (semver * string) :=
  match parts with
  | [] => inr (sem, tail)
  | part0 :: rest =>
      let '(part, tail) :=
        if Nat.eqb i 2 then splitTail part0 else (part0, tail) in
      match strconv.ParseInt part with
      | (_, Some err) => inl (sem, err)
      | (n, None) =>
          let sem :=
            match i with
            | 0%nat => set_major sem n
            | 1%nat => set_minor sem n
            | 2%nat => set_patch sem n
            | _ => sem
            end in
          parseParts (S i) rest sem tail
      end
  end.

(** The pointer [buf *[]rune]: nil, [&prebuf] or [&buildbuf]. *)
Inductive bufptr := bufNil | bufPre | bufBuild.

(** The loop [for _, r := range tail]; [None] is the nil-pointer
    dereference of [*buf]. *)
Fixpoint scanTail (rs : list Z) (buf : bufptr) (prebuf buildbuf : list Z)
  : option (list Z * list Z) :=
  match rs with
  | [] => Some (prebuf, buildbuf)
  | r :: rest =>
      if r =? 45 then scanTail rest bufPre prebuf buildbuf
      else if r =? 43 then scanTail rest bufBuild prebuf buildbuf
      else match buf with
           | bufNil => None
           | bufPre => scanTail rest buf (prebuf ++ [r]) buildbuf
           | bufBuild => scanTail rest buf prebuf (buildbuf ++ [r])
           end
  end.

Definition parseSemver (s : string) : outcome :=
  match s with
  | EmptyString => Panic "index out of range [0] with length 0"
  | String c0 s1 =>
      let s := if Ascii.eqb c0 "v" then s1 else s in
      let parts := strings.SplitN s "." 3 in
      match parseParts 0 parts zeroSemver EmptyString with
      | inl (sem, err) => Return sem (Some err)
      | inr (sem, tail) =>
          match tail with
          | EmptyString => Return sem None
          | String t0 _ =>
              if negb (Ascii.eqb t0 "-") && negb (Ascii.eqb t0 "+")
              then Return sem (Some errInvalidSemver)
              else
                match scanTail (map snd (utf8.range tail)) bufNil [] [] with
                | None => Panic "invalid memory address or nil pointer dereference"
                | Some (prebuf, buildbuf) =>
                    Return (set_build
                              (set_prerelease sem (utf8.string_of_runes prebuf))
                              (utf8.string_of_runes buildbuf)) None
                end
          end
      end
  end.

(** [sem.bump(v)]: the receiver after the call. *)
Definition bump (sem : semver) (v : version.t) : semver :=
  let sem := set_build (set_prerelease sem "") "" in
  if N.eqb v version.patch then set_patch sem (wrapInt (patch sem + 1))
  else if N.eqb v version.minor then
    set_minor (set_patch sem 0) (wrapInt (minor sem + 1))
  else if N.eqb v version.major then
    set_major (set_minor (set_patch sem 0) 0) (wrapInt (major sem + 1))
  else sem.

(** [sem.String()]. *)
Definition String_ (sem : semver) : string :=
  let s := "v" ++ strconv.FormatInt (major sem) ++ "."
           ++ strconv.FormatInt (minor sem) ++ "."
           ++ strconv.FormatInt (patch sem) in
  let s := if is_empty (prerelease sem) then s else s ++ "-" ++ prerelease sem in
  let s := if is_empty (build sem) then s else s ++ "+" ++ build sem in
  s.

(** ** The outside world

    [release] talks to the file system, the environment and two kinds of
    subprocess.  A [world] fixes what they answer; the model records what
    [release] asks of them as a trace of events.  Reads and writes of an
    open temporary file are taken to succeed (the source ignores the results
    of its writes). *)

(** A finished subprocess: the error of [cmd.Run()], if any, and what it
    wrote to its standard output and to its standard error. *)
Record proc := mkProc {
  run_err : option error;
  stdout : string;
  stderr : string
}.

Record world := mkWorld {
  (** [os.CreateTemp("", pattern)]: the name of the new file, or an error. *)
  CreateTemp : string -> string + error;
  (** [os.Getenv]. *)
  Getenv : string -> string;
  (** A subprocess on the terminal's streams ([cmd.Stdout = os.Stdout],
      [cmd.Stderr = os.Stderr]): from its arguments and the content of the
      notes file that [release] holds open, how it ends and the content of
      that open file afterwards.  The subprocess is given the name of the
      file, and what it does to the file of that name is its own business:
      an editor that saves by renaming leaves the open file as it was, and
      the answer is then the content it was given. *)
  terminal : list string -> string -> proc * string;
  (** A subprocess whose output is captured. *)
  captured : list string -> proc
}.

(** What [release] did.  [EvTerminal argv notes]: the subprocess [argv] was
    started on the terminal's streams when the notes file that [release]
    holds open had the content [notes]. *)
Inductive event :=
| EvCreateTemp (pattern : string)
| EvTerminal (argv : list string) (notes : string)
| EvCaptured (argv : list string)
| EvClose (name : string)
| EvRemove (name : string).

(** ** A small monad for [release]

    The state is the trace so far and the stack of deferred clean-ups (file
    names to close and remove).  A computation either goes on with a value
    or has left the function with an [outcome]. *)

Record pstate := mkPstate {
  trace : list event;
  deferred : list string
}.

Inductive step (A : Type) :=
| Next (a : A)
| Left (o : outcome).
Arguments Next {A} a.
Arguments Left {A} o.

Definition M (A : Type) : Type := pstate -> step A * pstate.

Definition ret {A} (a : A) : M A := fun st => (Next a, st).

Definition bind {A B} (m : M A) (k : A -> M B) : M B :=
  fun st =>
    match m st with
    | (Next a, st') => k a st'
    | (Left o, st') => (Left o, st')
    end.

(** [return sem, err] *)
Definition leave {A} (sem : semver) (err : error) : M A :=
  fun st => (Left (Return sem (Some err)), st).

Definition panic {A} (msg : string) : M A :=
  fun st => (Left (Panic msg), st).

Definition emit (e : event) : M unit :=
  fun st => (Next tt, mkPstate (trace st ++ [e])%list (deferred st)).

(** [defer func() { f.Close(); os.Remove(f.Name()) }()] *)
Definition defer (name : string) : M unit :=
  fun st => (Next tt, mkPstate (trace st) (name :: deferred st)).

Declare Scope release_scope.
Delimit Scope release_scope with release.
Notation "x <- m ;; k" := (bind m (fun x => k))
  (at level 61, m at next level, right associativity) : release_scope.
Notation "' p <- m ;; k" := (bind m (fun x => let 'p := x in k))
  (at level 61, p pattern, m at next level, right associativity) : release_scope.
Notation "m ;;; k" := (bind m (fun _ => k))
  (at level 61, right associativity) : release_scope.
Local Open Scope release_scope.

(** The deferred calls run last in, first out, on every way out. *)
Definition cleanup (names : list string) : list event :=
  flat_map (fun n => [EvClose n; EvRemove n]) names.

Definition runM (m : M semver) : outcome * list event :=
  match m (mkPstate [] []) with
  | (Next sem, st) => (Return sem None, (trace st ++ cleanup (deferred st))%list)
  | (Left o, st) => (o, (trace st ++ cleanup (deferred st))%list)
  end.

(** ** package main: subprocesses *)

(** The first line of a diagnostic output: [strings.Split(s, "\n")[0]]. *)
Definition firstLine (s : string) : string :=
  hd EmptyString (strings.Split s LF).

Definition git (w : world) (a : list string) : M (string * option error) :=
  emit (EvCaptured ("git" :: a)) ;;;
  let p := captured w ("git" :: a) in
  match run_err p with
  | Some _ => ret (EmptyString, Some (errorsNew (firstLine (stderr p))))
  | None => ret (stdout p, None)
  end.

(** [openInEditor]: the error, if any, and the notes file afterwards. *)
Definition openInEditor (w : world) (name : string) (notes : string)
  : M (option error * string) :=
  let editor := Getenv w "EDITOR" in
  if is_empty editor then ret (Some (errorsNew "EDITOR not set"), notes)
  else
    emit (EvTerminal [editor; name] notes) ;;;
    let '(p, edited) := terminal w [editor; name] notes in
    ret (run_err p, edited).

(** [gitshortlog]: on success the name of the temporary file and what
    [git shortlog] wrote into it. *)
Definition gitshortlog (w : world) (revrange : string)
  : M ((string * string) + error) :=
  emit (EvCreateTemp "release-changelog-*") ;;;
  match CreateTemp w "release-changelog-*" with
  | inr err => ret (inr err)
  | inl f =>
      emit (EvCaptured ["git"; "shortlog"; revrange]) ;;;
      let p := captured w ["git"; "shortlog"; revrange] in
      match run_err p with
      | Some _ => ret (inr (errorsNew (firstLine (stderr p))))
      | None => ret (inl (f, stdout p))
      end
  end.

Definition gittag (w : world) (tag tagfile : string) (notes : string)
  : M (option error) :=
  emit (EvTerminal ["git"; "tag"; "-a"; tag; "-eF"; tagfile] notes) ;;;
  ret (run_err (fst (terminal w ["git"; "tag"; "-a"; tag; "-eF"; tagfile] notes))).

Definition notesPreamble : string :=
"# Enter notes about the release below. These would provide a high-level overview
# of what's in the release. Lines starting with '#' will be ignored, and the
# output of 'git shortlog' will be appended to the bottom.
".

(** ** package bufio: a [Scanner] with the default split function *)

Module bufio.

Definition MaxScanTokenSize : Z := 64 * 1024.

Definition ErrTooLong : error := ScanError "bufio.Scanner: token too long".

Fixpoint dropCR (s : string) : string :=
  match s with
  | EmptyString => EmptyString
  | String c EmptyString => if Ascii.eqb c "013" then EmptyString else s
  | String c t => String c (dropCR t)
  end.

Definition tooLong (line : string) : bool :=
  MaxScanTokenSize <=? Z.of_nat (String.length line).

(** The lines [sc.Text()] yields while [sc.Scan()] is true, and [sc.Err()]
    afterwards.  [cur] is the line read so far.  A line ends at a newline
    or at the end of the data; a last empty line is not a line; a line
    that does not fit the buffer stops the scan. *)
Fixpoint scanFrom (data : string) (cur : string) : list string * option error :=
  match data with
  | EmptyString =>
      if is_empty cur then ([], None)
      else if tooLong cur then ([], Some ErrTooLong)
      else ([dropCR cur], None)
  | String c t =>
      if Ascii.eqb c LF then
        if tooLong cur then ([], Some ErrTooLong)
        else let (ls, e) := scanFrom t EmptyString in (dropCR cur :: ls, e)
      else scanFrom t (cur ++ String c EmptyString)
  end.

Definition ScanLines (data : string) : list string * option error :=
  scanFrom data EmptyString.

End bufio.

(** ** package main: release

    The body of [release] is one straight sequence; it is given here in four
    blocks, in the order of the source. *)

Definition isComment (line : string) : bool :=
  match line with
  | String c _ => Ascii.eqb c "#"
  | EmptyString => false
  end.

(** The loop [for sc.Scan()] over the lines of the notes file: what is
    written to [buf]. *)
Fixpoint collectNotes (lines : list string) (buf : string) : string :=
  match lines with
  | [] => buf
  | line :: rest =>
      if isComment line then collectNotes rest buf
      else collectNotes rest (buf ++ line ++ String LF EmptyString)
  end.

(** From [os.CreateTemp] to [io.Copy(f, &buf)]: the name of the notes file
    and the notes without their comment lines, which the file then holds. *)
Definition notes (w : world) (sem : semver) : M (string * string) :=
  emit (EvCreateTemp "release-*") ;;;
  match CreateTemp w "release-*" with
  | inr err => leave sem err
  | inl f =>
      defer f ;;;
      '(err, edited) <- openInEditor w f notesPreamble ;;
      match err with
      | Some err => leave sem err
      | None =>
          let '(lines, scerr) := bufio.ScanLines edited in
          let buf := collectNotes lines EmptyString in
          match scerr with
          | Some err => leave sem err
          | None => ret (f, buf)
          end
      end
  end.

(** From [revrange := "HEAD"] to the end of [if err == nil]: the version of
    the latest tag and the range of the changelog. *)
Definition previous (w : world) (sem : semver) : M (semver * string) :=
  let revrange := "HEAD" in
  '(prev, err) <- git w ["describe"; "--abbrev=0"] ;;
  match err with
  | None =>
      let prev := strings.TrimSuffix prev LF in
      match parseSemver prev with
      | Panic msg => panic msg
      | Return sem (Some err) => leave sem err
      | Return sem None => ret (sem, prev ++ "..HEAD")
      end
  | Some _ => ret (sem, revrange)
  end.

(** [sem.build = sem.build[:len(sem.build)-1]] under [len(sem.build) > 0]. *)
Definition dropLast (s : string) : string :=
  if (0 <? String.length s)%nat then take (String.length s - 1) s else s.

(** From [sem.bump(next)] to the end of [if info]. *)
Definition qualify (w : world) (sem : semver) (next : version.t) (info : bool)
  (prerelease : string) : M semver :=
  let sem := bump sem next in
  let sem := set_prerelease sem prerelease in
  if info then
    '(out, err) <- git w ["log"; "-n"; "1"; "--format=%h"] ;;
    let sem := set_build sem (dropLast out) in
    match err with
    | Some err => leave sem err
    | None => ret sem
    end
  else ret sem.

Definition changelogHeader : string :=
  String LF ("Changelog:" ++ String LF (String LF EmptyString)).

(** From [gitshortlog(revrange)] to the end.  [message] is what [release]
    has written into the notes file through its handle when it starts
    [git tag] on the name of the file. *)
Definition publish (w : world) (f buf : string) (sem : semver) (revrange : string)
  : M semver :=
  r <- gitshortlog w revrange ;;
  match r with
  | inr err => leave sem err
  | inl (cname, changelog) =>
      defer cname ;;;
      let message := buf ++ changelogHeader ++ changelog in
      let tag := String_ sem in
      err <- gittag w tag f message ;;
      match err with
      | Some err => leave sem err
      | None =>
          '(_, err) <- git w ["archive"; "-o"; tag ++ ".tar.gz"; tag] ;;
          match err with
          | Some err => leave sem err
          | None => ret sem
          end
      end
  end.

Definition release_body (w : world) (next : version.t) (info : bool)
  (prerelease : string) : M semver :=
  let sem := zeroSemver in
  '(f, buf) <- notes w sem ;;
  '(sem, revrange) <- previous w sem ;;
  sem <- qualify w sem next info prerelease ;;
  publish w f buf sem revrange.

(** [release]: what it returns (or its panic) and what it did. *)
Definition release (w : world) (next : version.t) (info : bool)
  (prerelease : string) : outcome * list event :=
  runM (release_body w next info prerelease).

(** ** Vocabulary of the specification *)

(** The dot-separated segments [parseSemver] works on: the input without its
    leading [v], cut at the first two dots. *)
Definition segments (s : string) : list string :=
  match s with
  | EmptyString => []
  | String c0 s1 => strings.SplitN (if Ascii.eqb c0 "v" then s1 else s) "." 3
  end.

Definition parsesAsInt (part : string) : Prop := snd (strconv.ParseInt part) = None.

Fixpoint all_bytes (p : ascii -> bool) (s : string) : bool :=
  match s with
  | EmptyString => true
  | String c t => p c && all_bytes p t
  end.

(** A numeric segment: one decimal digit or more. *)
Definition numeric (s : string) : bool :=
  negb (is_empty s) && all_bytes strconv.is_digit s.

(** The number a string of digits denotes, after the digits of [n]. *)
Fixpoint digitsValue (s : string) (n : Z) : Z :=
  match s with
  | EmptyString => n
  | String c t => digitsValue t (n * 10 + (byte_val c - 48))
  end.

Definition leadingZero (s : string) : bool :=
  match s with
  | String c (String _ _) => Ascii.eqb c "0"
  | _ => false
  end.

(** A numeral as [%d] prints it: digits only, no leading zero, within the
    range of [int]. *)
Definition canonical (s : string) : bool :=
  numeric s && negb (leadingZero s) && (digitsValue s 0 <=? maxInt64).

(** A byte of a qualifier: ASCII, and neither of the two separators. *)
Definition identByte (c : ascii) : bool :=
  (byte_val c <? 128) && negb (Ascii.eqb c "-") && negb (Ascii.eqb c "+").

Definition qualifier (q : option string) : bool :=
  match q with
  | None => true
  | Some s => negb (is_empty s) && all_bytes identByte s
  end.

(** The parts of a version text: three segments, an optional prerelease and
    an optional build. *)
Record versionText := mkText {
  seg1 : string;
  seg2 : string;
  seg3 : string;
  pre : option string;
  meta : option string
}.

Definition opt_part (sep : ascii) (q : option string) : string :=
  match q with
  | None => EmptyString
  | Some s => String sep s
  end.

(** The text itself, with or without the leading [v]; with it, the
    canonical form. *)
Definition render (withV : bool) (t : versionText) : string :=
  (if withV then "v" else "")
  ++ seg1 t ++ "." ++ seg2 t ++ "." ++ seg3 t
  ++ opt_part "-" (pre t) ++ opt_part "+" (meta t).

(** Well-formed for a given notion of numeric segment. *)
Definition wellFormed (num : string -> bool) (t : versionText) : bool :=
  num (seg1 t) && num (seg2 t) && num (seg3 t)
  && qualifier (pre t) && qualifier (meta t).

(** [Render(Parse(s))], when parsing succeeds. *)
Definition roundTrip (s : string) : option string :=
  match parseSemver s with
  | Return sem None => Some (String_ sem)
  | _ => None
  end.

(** The lines of a text whose lines all end in a newline. *)
Fixpoint textLines (s : string) (cur : string) : list string :=
  match s with
  | EmptyString => []
  | String c t =>
      if Ascii.eqb c LF then cur :: textLines t EmptyString
      else textLines t (cur ++ String c EmptyString)
  end.

Definition hasNoLF (s : string) : bool :=
  all_bytes (fun c => negb (Ascii.eqb c LF)) s.

(** The text whose lines are [ls], each ended by a newline. *)
Fixpoint unlines (ls : list string) : string :=
  match ls with
  | [] => EmptyString
  | l :: rest => l ++ String LF (unlines rest)
  end.

(** A text made of whole lines: it is empty or ends with a newline. *)
Definition wholeLines (s : string) : Prop :=
  s = "" \/ exists b, s = b ++ String LF "".

(** The lines [release] reads back from the notes file [f] once the editor
    has returned. *)
Definition editedLines (w : world) (f : string) : list string :=
  fst (bufio.ScanLines (snd (terminal w [Getenv w "EDITOR"; f] notesPreamble))).

(** The runes of an ASCII text. *)
Fixpoint runes_of (s : string) : list Z :=
  match s with
  | EmptyString => []
  | String c t => byte_val c :: runes_of t
  end.

(** Nothing, or an ASCII byte that is not a digit, comes first. *)
Definition startsNonDigit (t : string) : bool :=
  match t with
  | EmptyString => true
  | String d _ => (byte_val d <? 128) && negb (strconv.is_digit d)
  end.

Definition opt_text (q : option string) : string :=
  match q with
  | Some s => s
  | None => EmptyString
  end.

(** The version a well-formed text denotes. *)
Definition denotes (t : versionText) : semver :=
  mkSemver (digitsValue (seg1 t) 0) (digitsValue (seg2 t) 0) (digitsValue (seg3 t) 0)
    (opt_text (pre t)) (opt_text (meta t)).

(** ** Worlds for examples *)

Definition silent : proc := mkProc None "" "".

Definition failed (status : string) (diagnostic : string) : proc :=
  mkProc (Some (ExitError status)) "" diagnostic.

(** Temporary files can be created, [EDITOR] is [vi] and leaves [edited] in
    the notes file; [git describe], [git log] and [git tag] end as given,
    every other command succeeds and prints nothing. *)
Definition exampleWorld (edited : string) (describe log tag : proc) : world :=
  mkWorld
    (fun pattern => inl ("/tmp/" ++ pattern))
    (fun key => if String.eqb key "EDITOR" then "vi" else "")
    (fun argv file =>
       match argv with
       | "git" :: _ => (tag, file)
       | _ => (silent, edited)
       end)
    (fun argv =>
       match argv with
       | "git" :: "describe" :: _ => describe
       | "git" :: "log" :: _ => log
       | _ => silent
       end).

(** [git describe] in a repository without any tag. *)
Definition noNames : proc :=
  failed "exit status 128"
    ("fatal: No names found, cannot describe anything." ++ String LF "").

(** [git describe] in a repository whose tags are all lightweight. *)
Definition noAnnotated : proc :=
  failed "exit status 128"
    ("fatal: No annotated tags can describe '1a2b3c4d5e6f'." ++ String LF
       ("However, there were unannotated tags: try --tags." ++ String LF "")).

(** [git tag] on a tag that exists. *)
Definition tagExists : proc :=
  failed "exit status 128" ("fatal: tag 'v0.0.1' already exists" ++ String LF "").

(** A notes file as a user leaves it: the preamble, two paragraphs and a
    comment of the user's own. *)
Definition userNotes : string :=
  notesPreamble ++ "First release." ++ String LF (String LF
    ("# not for the tag" ++ String LF "Thanks.")).

(** [git log -n 1 --format=%h] as git prints it. *)
Definition shortHash : proc := mkProc None ("1a2b3c4" ++ String LF "") "".

(** ** The pipeline's commands, and the pipeline of a first release *)

Definition describeArgs : list string := ["git"; "describe"; "--abbrev=0"].
Definition logArgs : list string := ["git"; "log"; "-n"; "1"; "--format=%h"].
Definition tagArgs (tag file : string) : list string :=
  ["git"; "tag"; "-a"; tag; "-eF"; file].

(** The state after one more event. *)
Definition logged (st : pstate) (e : event) : pstate :=
  mkPstate (trace st ++ [e])%list (deferred st).

(** [release] as it runs when there is no previous version to parse: after
    [git describe], the zero version and the range [HEAD]. *)
Definition firstRelease (w : world) (next : version.t) (info : bool)
  (prerelease : string) : M semver :=
  bind (notes w zeroSemver) (fun fb =>
  bind (emit (EvCaptured describeArgs)) (fun _ =>
  bind (qualify w zeroSemver next info prerelease) (fun sem =>
  publish w (fst fb) (snd fb) sem "HEAD"))).

(** ** Vocabulary of the further properties *)

(** The text starts with a digit. *)
Definition startsWithDigit (t : string) : bool :=
  match t with
  | EmptyString => false
  | String e _ => strconv.is_digit e
  end.

(** The leading digits of a text, and what follows them. *)
Fixpoint digitPrefix (s : string) : string :=
  match s with
  | EmptyString => EmptyString
  | String c t => if strconv.is_digit c then String c (digitPrefix t) else EmptyString
  end.

Fixpoint afterDigits (s : string) : string :=
  match s with
  | EmptyString => EmptyString
  | String c t => if strconv.is_digit c then afterDigits t else s
  end.

(** The qualifier text [String] appends. *)
Definition qualifierText (sem : semver) : string :=
  (if is_empty (prerelease sem) then "" else "-" ++ prerelease sem)
  ++ (if is_empty (build sem) then "" else "+" ++ build sem).

(** The range of [int]. *)
Definition intRange (n : Z) : Prop := minInt64 <= n <= maxInt64.

(** A rune the tail loop stores: a valid code point that is neither
    separator. *)
Definition storedRune (r : Z) : Prop :=
  utf8.ValidRune r = true /\ r <> 45 /\ r <> 43.

(** A version as [parseSemver] builds them: numbers of the range of [int],
    [patch] not negative, qualifiers made of stored runes. *)
Definition parsedForm (sem : semver) : Prop :=
  intRange (major sem) /\ intRange (minor sem) /\ 0 <= patch sem <= maxInt64 /\
  exists pb bb,
    prerelease sem = utf8.string_of_runes pb /\ build sem = utf8.string_of_runes bb /\
    Forall storedRune pb /\ Forall storedRune bb.

(** A byte that is neither [-] nor [+]. *)
Definition noSeparator (c : ascii) : bool :=
  negb (Ascii.eqb c "-") && negb (Ascii.eqb c "+").

(** What follows the digits of the third part opens a qualifier. *)
Definition opensQualifier (t : string) : bool :=
  match t with
  | EmptyString => true
  | String t0 _ => Ascii.eqb t0 "-" || Ascii.eqb t0 "+"
  end.

(** Precedence of the numbers: by [major], then [minor], then [patch]. *)
Definition precedes (x y : semver) : Prop :=
  major x < major y \/
  (major x = major y /\
   (minor x < minor y \/ (minor x = minor y /\ patch x < patch y))).

(** The number a bump of kind [v] increments. *)
Definition bumped (sem : semver) (v : version.t) : Z :=
  if N.eqb v version.patch then patch sem
  else if N.eqb v version.minor then minor sem
  else major sem.

(** One of the three kinds [main] passes to [release]. *)
Definition isKind (v : version.t) : Prop :=
  v = version.patch \/ v = version.minor \/ v = version.major.

(** A world in which every [git] command fails. *)
Definition shortlogFails : world :=
  mkWorld (fun pattern => inl ("/tmp/" ++ pattern))
    (fun _ => "vi")
    (fun _ file => (silent, file))
    (fun argv => match argv with
                 | "git" :: "shortlog" :: _ =>
                     failed "exit status 128" "fatal: bad revision"
                 | _ => failed "exit status 128" ""
                 end).

(** A world without [EDITOR]. *)
Definition noEditor : world :=
  mkWorld (fun pattern => inl ("/tmp/" ++ pattern)) (fun _ => "")
    (fun _ file => (silent, file)) (fun _ => silent).

(** A world whose editor exits with status 1. *)
Definition editorFails : world :=
  mkWorld (fun pattern => inl ("/tmp/" ++ pattern)) (fun _ => "vi")
    (fun _ file => (failed "exit status 1" "", file)) (fun _ => silent).

(** A text that is empty or starts with a newline. *)
Definition endsLine (s : string) : Prop :=
  s = "" \/ exists t, s = String LF t.

Fixpoint repeatByte (n : nat) (c : ascii) : string :=
  match n with
  | O => EmptyString
  | S k => String c (repeatByte k c)
  end.

(** A line as long as the scanner's buffer. *)
Definition longLine : string := repeatByte (Nat.pow 2 16) "x".

(** The preamble without its last newline. *)
Definition preambleBody : string :=
"# Enter notes about the release below. These would provide a high-level overview
# of what's in the release. Lines starting with '#' will be ignored, and the
# output of 'git shortlog' will be appended to the bottom.".

(** A world whose editor leaves one line of 65536 bytes after the preamble. *)
Definition longLineWorld : world :=
  mkWorld (fun pattern => inl ("/tmp/" ++ pattern)) (fun _ => "vi")
    (fun _ _ => (silent, (preambleBody ++ String LF "") ++ longLine ++ ""))
    (fun _ => silent).

(** A world without room for temporary files. *)
Definition noTempWorld : world :=
  mkWorld (fun _ => inr (PathError "open /tmp/release-1: no space left on device"))
    (fun _ => "vi") (fun _ file => (silent, file)) (fun _ => silent).

(** The range of commits of the changelog: all of [HEAD], or what follows
    the tag that [git describe] printed. *)
Definition changelogRange (w : world) : string :=
  match run_err (captured w describeArgs) with
  | Some _ => "HEAD"
  | None => strings.TrimSuffix (stdout (captured w describeArgs)) LF ++ "..HEAD"
  end.

(** [git tag] telling on the standard error that it waits for the editor. *)
Definition tagHints : proc :=
  mkProc None ""
    ("hint: Waiting for your editor to close the file..." ++ String LF "").

(** The run of the README, [release -info patch alpha], in a repository
    without tags. *)
Definition readmeWorld : world := exampleWorld userNotes noNames shortHash tagHints.

(** ** package main: main

    [main] after [fs.Parse]: [info] is the flag and [args] are the
    remaining arguments, as package [flag] leaves them.  With
    [flag.ExitOnError], [fs.Parse] does not return on [-h] or on a flag it
    does not know: the process has then ended before anything below
    happens.  The verb [%q] is a parameter, [quote]. *)

(** The texts of [strconv.ErrSyntax] and [strconv.ErrRange]. *)
Definition kindText (k : numErrKind) : string :=
  match k with
  | ErrSyntax => "invalid syntax"
  | ErrRange => "value out of range"
  end.

(** [err.Error()] *)
Definition Error (quote : string -> string) (e : error) : string :=
  match e with
  | NumError func num kind =>
      "strconv." ++ func ++ ": parsing " ++ quote num ++ ": " ++ kindText kind
  | errInvalidSemver => "invalid semver"
  | errorsNew msg => msg
  | ExitError msg => msg
  | PathError msg => msg
  | ScanError msg => msg
  end.

(** How the process ends: [os.Exit(code)] or the return of [main] (code 0),
    or a panic, which the Go runtime reports on the standard error before
    it ends the process with status 2. *)
Inductive ending :=
| Exit (code : Z)
| Crash (msg : string).

(** A run of [main]: how it ends, what [main] itself printed to the
    standard output ([fmt.Printf], [fmt.Println]) and to the standard error
    ([fmt.Fprintf(os.Stderr, ...)]), and what [release] did.  The editor and
    [git tag] write to the same streams: [standardOutput] and
    [standardError] below. *)
Record run := mkRun {
  ending_ : ending;
  printed : string;
  complained : string;
  events : list event
}.

(** The [switch args[0]]. *)
Definition kindOf (arg : string) : option version.t :=
  if String.eqb arg "major" then Some version.major
  else if String.eqb arg "minor" then Some version.minor
  else if String.eqb arg "patch" then Some version.patch
  else None.

(** The usage line, printed by [fmt.Printf]. *)
Definition usage (argv0 : string) : string :=
  "usage: " ++ argv0 ++ " [-info] <major|minor|patch> [pre-release]" ++ String LF "".

Definition main (quote : string -> string) (w : world) (argv0 : string)
  (info : bool) (args : list string) : run :=
  match args with
  | [] => mkRun (Exit 1) (usage argv0) "" []
  | kind :: args =>
      match kindOf kind with
      | None =>
          mkRun (Exit 1) ""
            (argv0 ++ ": unknown release version " ++ quote kind ++ String LF "") []
      | Some v =>
          let prerelease := match args with
                            | label :: _ => label
                            | [] => ""
                            end in
          match release w v info prerelease with
          | (Return sem (Some err), tr) =>
              mkRun (Exit 1) "" (argv0 ++ ": " ++ Error quote err ++ String LF "") tr
          | (Return sem None, tr) =>
              mkRun (Exit 0) (String_ sem ++ String LF "") "" tr
          | (Panic msg, tr) => mkRun (Crash msg) "" "" tr
          end
      end
  end.

(** The subprocesses of a run that were given the terminal's streams
    ([cmd.Stdout = os.Stdout], [cmd.Stderr = os.Stderr]), in their order:
    the editor and [git tag]. *)
Definition terminalRuns (w : world) (tr : list event) : list proc :=
  flat_map (fun e => match e with
                     | EvTerminal argv notes => [fst (terminal w argv notes)]
                     | _ => []
                     end) tr.

(** What has gone to the standard output when the process ends: what the
    editor and [git tag] wrote there, then what [main] printed. *)
Definition standardOutput (w : world) (r : run) : string :=
  fold_right (fun p rest => stdout p ++ rest) (printed r) (terminalRuns w (events r)).

(** What has gone to the standard error when [main] has written its own
    message: what the editor and [git tag] wrote there, then that message.
    After a panic the report of the Go runtime follows. *)
Definition standardError (w : world) (r : run) : string :=
  fold_right (fun p rest => stderr p ++ rest) (complained r) (terminalRuns w (events r)).

(** * Proofs *)

(** ** Bytes and strings *)

Lemma byte_val_range c : 0 <= byte_val c < 256.
Proof.
  unfold byte_val. pose proof (N_ascii_bounded c) as H. lia.
Qed.

Lemma byte_of_val c : byte_of (byte_val c) = c.
Proof.
  unfold byte_of, byte_val. rewrite N2Z.id. apply ascii_N_embedding.
Qed.


Lemma byte_val_inj c d : byte_val c = byte_val d -> c = d.
Proof.
  intros H. rewrite <- (byte_of_val c), <- (byte_of_val d). now rewrite H.
Qed.

Lemma append_assoc (a b c : string) : (a ++ b) ++ c = a ++ (b ++ c).
Proof. induction a; simpl; congruence. Qed.

Lemma append_nil_r (a : string) : a ++ "" = a.
Proof. induction a; simpl; congruence. Qed.

Create Rewrite HintDb appends.
#[local] Hint Rewrite append_assoc append_nil_r : appends.

Lemma take_app (a b : string) : take (String.length a) (a ++ b) = a.
Proof. induction a; simpl; [destruct b; reflexivity | congruence]. Qed.

Lemma drop_app (a b : string) : drop (String.length a) (a ++ b) = b.
Proof. induction a; simpl; auto. Qed.

(** ** strconv: what a successful parse yields *)


Ltac unfold_consts :=
  unfold maxUint64, maxInt64, minInt64, wrapU64, wrapInt in *;
  change (2 ^ 64) with 18446744073709551616 in *;
  change (2 ^ 63) with 9223372036854775808 in *;
  change (18446744073709551616 - 1) with 18446744073709551615 in *;
  change (18446744073709551615 / 10 + 1) with 1844674407370955162 in *.

Lemma is_digit_val c : strconv.is_digit c = true <-> 48 <= byte_val c <= 57.
Proof. unfold strconv.is_digit. rewrite andb_true_iff, !Z.leb_le. tauto. Qed.

(** One round of the digit loop without overflow. *)
Lemma parseUintLoop_step c t n :
  strconv.is_digit c = true -> 0 <= n -> n * 10 + (byte_val c - 48) <= maxUint64 ->
  strconv.parseUintLoop (String c t) n =
  strconv.parseUintLoop t (n * 10 + (byte_val c - 48)).
Proof.
  intros Hd Hn Hle. apply is_digit_val in Hd. simpl.
  replace (strconv.is_digit c) with true by (symmetry; apply is_digit_val; lia).
  simpl. unfold_consts.
  destruct (1844674407370955162 <=? n) eqn:E1; [apply Z.leb_le in E1; lia|].
  rewrite (Z.mod_small (n * 10)) by lia.
  rewrite (Z.mod_small (n * 10 + _)) by lia.
  destruct (n * 10 + (byte_val c - 48) <? n * 10) eqn:E2; [apply Z.ltb_lt in E2; lia|].
  destruct (18446744073709551615 <? n * 10 + (byte_val c - 48)) eqn:E3;
    [apply Z.ltb_lt in E3; lia|].
  reflexivity.
Qed.

Lemma parseUintLoop_ok s : forall n v,
  0 <= n <= maxUint64 -> strconv.parseUintLoop s n = (v, None) -> n <= v <= maxUint64.
Proof.
  induction s as [|c t IH]; simpl; intros n v Hn H.
  - inversion H; subst. lia.
  - destruct (strconv.is_digit c) eqn:Hd; simpl in H; [|discriminate].
    apply is_digit_val in Hd. unfold_consts.
    destruct (1844674407370955162 <=? n) eqn:E1; [discriminate|].
    apply Z.leb_gt in E1.
    rewrite (Z.mod_small (n * 10)) in H by lia.
    destruct (Z_le_gt_dec (n * 10 + (byte_val c - 48)) 18446744073709551615) as [Hs|Hs].
    + rewrite (Z.mod_small (n * 10 + _)) in H by lia.
      destruct (_ || _) in H; [discriminate|].
      apply IH in H; unfold_consts; lia.
    + replace ((n * 10 + (byte_val c - 48)) mod 18446744073709551616)
        with (n * 10 + (byte_val c - 48) - 18446744073709551616) in H.
      2:{ apply Z.mod_unique with (q := 1); lia. }
      destruct (_ <? n * 10) eqn:E2; [discriminate|].
      apply Z.ltb_ge in E2. lia.
Qed.

Lemma ParseUint_ok s v : strconv.ParseUint s = (v, None) -> 0 <= v <= maxUint64.
Proof.
  unfold strconv.ParseUint. destruct s; [discriminate|].
  intros H. apply parseUintLoop_ok in H; unfold_consts; lia.
Qed.


Lemma parseUintLoop_range s : forall n v,
  strconv.parseUintLoop s n = (v, Some ErrRange) -> v = maxUint64.
Proof.
  induction s as [|c t IH]; simpl; intros n v H; [discriminate|].
  destruct (negb (strconv.is_digit c)); [discriminate|].
  destruct (_ <=? n); [now inversion H|].
  destruct (_ || _); [now inversion H|]. eauto.
Qed.

Lemma ParseUint_range s v : strconv.ParseUint s = (v, Some ErrRange) -> v = maxUint64.
Proof.
  unfold strconv.ParseUint. destruct s; [discriminate|]. apply parseUintLoop_range.
Qed.

(** A successful [ParseInt] yields a 64-bit integer, negative only under a
    leading minus sign. *)
Lemma ParseInt_ok s v :
  strconv.ParseInt s = (v, None) ->
  minInt64 <= v <= maxInt64 /\
  (v < 0 -> exists t, s = String "-" t).
Proof.
  unfold strconv.ParseInt. destruct s as [|c t]; [discriminate|].
  set (sd := if Ascii.eqb c "+" then (false, t)
             else if Ascii.eqb c "-" then (true, t) else (false, String c t)).
  assert (Hneg : fst sd = true -> c = "-"%char).
  { unfold sd. destruct (Ascii.eqb c "+"); [discriminate|].
    destruct (Ascii.eqb c "-") eqn:E; [|discriminate].
    now apply Ascii.eqb_eq in E. }
  destruct sd as [neg digits]. simpl in Hneg.
  destruct (strconv.ParseUint digits) as [un k] eqn:EU.
  destruct k as [[]|]; [discriminate| |].
  - apply ParseUint_range in EU. subst un. unfold_consts.
    destruct neg; simpl; discriminate.
  - apply ParseUint_ok in EU. unfold_consts.
    destruct neg; simpl.
    + destruct (9223372036854775808 <? un) eqn:E; [discriminate|].
      apply Z.ltb_ge in E. intros H; inversion H; subst.
      rewrite (Hneg eq_refl). split; [lia|eauto].
    + destruct (9223372036854775808 <=? un) eqn:E; [discriminate|].
      apply Z.leb_gt in E. intros H; inversion H; subst. split; lia.
Qed.

(** ** utf8: decoding one rune *)

Lemma lor_ge_128_l a b : 0 <= b -> 128 <= a -> 128 <= Z.lor a b.
Proof.
  intros Hb Ha.
  assert (H7 : 7 <= Z.log2 (Z.lor a b)).
  { rewrite Z.log2_lor by lia.
    assert (7 <= Z.log2 a) by (apply Z.log2_le_pow2; [lia | change (2 ^ 7) with 128; lia]).
    lia. }
  destruct (Z_lt_le_dec 0 (Z.lor a b)) as [Hp|Hn].
  - apply Z.log2_le_pow2 in H7; [change (2 ^ 7) with 128 in H7; lia | lia].
  - rewrite Z.log2_nonpos in H7 by lia. lia.
Qed.

Lemma lor_ge_128_r a b : 0 <= a -> 128 <= b -> 128 <= Z.lor a b.
Proof. intros. rewrite Z.lor_comm. now apply lor_ge_128_l. Qed.

Lemma land_mask b k : 0 <= k -> Z.land b (2 ^ k - 1) = b mod 2 ^ k.
Proof.
  intros Hk. rewrite <- Z.land_ones by lia. f_equal.
  rewrite Z.ones_equiv. lia.
Qed.

Lemma between_spec lo hi b : utf8.between lo hi b = true <-> lo <= b <= hi.
Proof. unfold utf8.between. rewrite andb_true_iff, !Z.leb_le. tauto. Qed.

Lemma cont_range b : 0 <= utf8.cont b < 64.
Proof.
  unfold utf8.cont. change 63 with (2 ^ 6 - 1). rewrite land_mask by lia.
  apply Z.mod_pos_bound. lia.
Qed.

Lemma decode_ascii c t :
  byte_val c < 128 -> utf8.DecodeRuneInString (String c t) = (byte_val c, 1%nat).
Proof.
  intros H. simpl. destruct (byte_val c <? 128) eqn:E; [reflexivity|].
  apply Z.ltb_ge in E. lia.
Qed.

Ltac mod_lia := Z.to_euclidean_division_equations; lia.

(** A byte outside ASCII never starts a rune below 128. *)
Lemma decode_nonascii c t :
  128 <= byte_val c -> 128 <= fst (utf8.DecodeRuneInString (String c t)).
Proof.
  intros H. pose proof (byte_val_range c) as Hc.
  assert (HE : 128 <= utf8.RuneError) by (unfold utf8.RuneError; lia).
  unfold utf8.DecodeRuneInString.
  destruct (byte_val c <? 128) eqn:E; [apply Z.ltb_lt in E; lia|].
  destruct (utf8.between 194 223 (byte_val c)) eqn:E2.
  { apply between_spec in E2.
    destruct t as [|c1 t]; [exact HE|].
    destruct (utf8.between 128 191 (byte_val c1)); [|exact HE]. cbn [fst].
    pose proof (cont_range (byte_val c1)).
    apply lor_ge_128_l; [lia|].
    rewrite Z.shiftl_mul_pow2 by lia. change 31 with (2 ^ 5 - 1).
    rewrite land_mask by lia. change (2 ^ 5) with 32. change (2 ^ 6) with 64.
    mod_lia. }
  destruct (utf8.between 224 239 (byte_val c)) eqn:E3.
  { apply between_spec in E3.
    destruct t as [|c1 [|c2 t]]; try exact HE.
    destruct (utf8.second_range (byte_val c)) as [lo hi] eqn:ER.
    destruct (utf8.between lo hi (byte_val c1) && _) eqn:EB; [|exact HE].
    apply andb_true_iff in EB. destruct EB as [EB _]. apply between_spec in EB.
    cbn [fst].
    pose proof (cont_range (byte_val c1)). pose proof (cont_range (byte_val c2)).
    assert (0 <= Z.land (byte_val c) 15) by (apply Z.land_nonneg; lia).
    destruct (Z.eq_dec (byte_val c) 224) as [E224|N224].
    - apply lor_ge_128_r; [apply Z.shiftl_nonneg; lia|].
      apply lor_ge_128_l; [lia|].
      rewrite E224 in ER. cbn in ER. inversion ER; subst lo hi.
      rewrite Z.shiftl_mul_pow2 by lia. unfold utf8.cont. change 63 with (2 ^ 6 - 1).
      rewrite land_mask by lia. change (2 ^ 6) with 64. mod_lia.
    - apply lor_ge_128_l; [apply Z.lor_nonneg; split; [apply Z.shiftl_nonneg|]; lia|].
      rewrite Z.shiftl_mul_pow2 by lia. change 15 with (2 ^ 4 - 1).
      rewrite land_mask by lia. change (2 ^ 4) with 16. change (2 ^ 12) with 4096.
      mod_lia. }
  destruct (utf8.between 240 244 (byte_val c)) eqn:E4; [|exact HE].
  apply between_spec in E4.
  destruct t as [|c1 [|c2 [|c3 t]]]; try exact HE.
  destruct (utf8.second_range (byte_val c)) as [lo hi] eqn:ER.
  destruct (utf8.between lo hi (byte_val c1) && _ && _) eqn:EB; [|exact HE].
  apply andb_true_iff in EB. destruct EB as [EB _].
  apply andb_true_iff in EB. destruct EB as [EB _]. apply between_spec in EB.
  cbn [fst].
  pose proof (cont_range (byte_val c1)). pose proof (cont_range (byte_val c2)).
  pose proof (cont_range (byte_val c3)).
  assert (0 <= Z.land (byte_val c) 7) by (apply Z.land_nonneg; lia).
  assert (Hrest : 0 <= Z.lor (Z.shiftl (utf8.cont (byte_val c2)) 6) (utf8.cont (byte_val c3))).
  { apply Z.lor_nonneg; split; [apply Z.shiftl_nonneg|]; lia. }
  destruct (Z.eq_dec (byte_val c) 240) as [E240|N240].
  - apply lor_ge_128_r; [apply Z.shiftl_nonneg; lia|].
    apply lor_ge_128_l; [lia|].
    rewrite E240 in ER. cbn in ER. inversion ER; subst lo hi.
    rewrite Z.shiftl_mul_pow2 by lia. unfold utf8.cont. change 63 with (2 ^ 6 - 1).
    rewrite land_mask by lia. change (2 ^ 6) with 64. change (2 ^ 12) with 4096.
    mod_lia.
  - apply lor_ge_128_l.
    { apply Z.lor_nonneg; split; [apply Z.shiftl_nonneg; lia|exact Hrest]. }
    rewrite Z.shiftl_mul_pow2 by lia. change 7 with (2 ^ 3 - 1).
    rewrite land_mask by lia. change (2 ^ 3) with 8. change (2 ^ 18) with 262144.
    mod_lia.
Qed.

(** ** parseSemver: the shape of its runs *)

Lemma genSplit_length n s sep :
  (1 <= List.length (strings.genSplit n s sep) <= S n)%nat.
Proof.
  revert s. induction n as [|n IH]; intros s; simpl; [lia|].
  destruct (strings.Cut s sep) as [[a b]|]; simpl; [|lia].
  specialize (IH b). lia.
Qed.

Lemma segments_shape s :
  s <> "" ->
  (exists a, segments s = [a]) \/ (exists a b, segments s = [a; b]) \/
  (exists a b c, segments s = [a; b; c]).
Proof.
  intros Hs. destruct s as [|c0 s1]; [congruence|]. unfold segments, strings.SplitN.
  pose proof (genSplit_length 2 (if Ascii.eqb c0 "v" then s1 else String c0 s1) ".") as H.
  destruct (strings.genSplit _ _ _) as [|a [|b [|c [|d l]]]]; simpl in H; try lia; eauto 6.
Qed.

Lemma rangeFrom_index s : forall i k j r,
  In (j, r) (utf8.rangeFrom s i k) -> (i <= j)%nat.
Proof.
  induction s as [|c t IH]; intros i k j r H; [contradiction|].
  cbn [utf8.rangeFrom] in H. destruct k as [|k].
  - destruct (utf8.DecodeRuneInString (String c t)) as [r0 w].
    destruct H as [H|H]; [inversion H; lia|]. apply IH in H. lia.
  - apply IH in H. lia.
Qed.

Lemma firstNonDigit_In its j :
  firstNonDigit its = Some j -> exists r, In (j, r) its.
Proof.
  induction its as [|[j0 r0] rest IH]; simpl; [discriminate|].
  destruct (negb (is_digit_rune r0)).
  - intros H; inversion H; subst. eauto.
  - intros H. destruct (IH H) as [r Hr]. eauto.
Qed.

Lemma is_digit_rune_val r : is_digit_rune r = true <-> 48 <= r <= 57.
Proof. unfold is_digit_rune. rewrite andb_true_iff, !Z.leb_le. tauto. Qed.

(** A rune that is a digit is the digit byte itself. *)
Lemma decode_digit c t :
  is_digit_rune (fst (utf8.DecodeRuneInString (String c t))) = true ->
  utf8.DecodeRuneInString (String c t) = (byte_val c, 1%nat) /\ strconv.is_digit c = true.
Proof.
  intros H. apply is_digit_rune_val in H.
  destruct (Z_lt_le_dec (byte_val c) 128) as [Hlt|Hge].
  - rewrite decode_ascii in * by assumption. cbn [fst] in H.
    split; [reflexivity|]. apply is_digit_val. lia.
  - pose proof (decode_nonascii c t Hge). lia.
Qed.

(** The third part after the inner loop is empty or starts with a digit. *)
Lemma splitTail_head part :
  fst (splitTail part) = "" \/
  exists c t, fst (splitTail part) = String c t /\ strconv.is_digit c = true.
Proof.
  unfold splitTail, utf8.range. destruct part as [|c t]; [left; reflexivity|].
  cbn [utf8.rangeFrom].
  destruct (utf8.DecodeRuneInString (String c t)) as [r w] eqn:ED.
  cbn [firstNonDigit]. destruct (is_digit_rune r) eqn:Er; cbn [negb].
  - assert (Hd : strconv.is_digit c = true).
    { apply (decode_digit c t). rewrite ED. exact Er. }
    destruct (firstNonDigit _) as [j|] eqn:EF; cbn [fst]; [|right; eauto].
    destruct (firstNonDigit_In _ _ EF) as [r' Hin].
    apply rangeFrom_index in Hin. destruct j as [|j]; [lia|].
    right. simpl. eauto.
  - left. reflexivity.
Qed.

Lemma splitTail_nonneg part n :
  strconv.ParseInt (fst (splitTail part)) = (n, None) -> 0 <= n <= maxInt64.
Proof.
  intros H. destruct (ParseInt_ok _ _ H) as [Hr Hneg].
  destruct (Z_lt_le_dec n 0) as [Hlt|Hge]; [|lia].
  destruct (Hneg Hlt) as [t Ht].
  destruct (splitTail_head part) as [E|(c & t' & E & Hd)]; rewrite E in Ht.
  - discriminate.
  - inversion Ht; subst. discriminate.
Qed.

Lemma scanTail_nonnil rs : forall buf p b,
  buf <> bufNil -> scanTail rs buf p b <> None.
Proof.
  induction rs as [|r rs IH]; intros buf p b Hb; simpl; [discriminate|].
  destruct (r =? 45); [apply IH; discriminate|].
  destruct (r =? 43); [apply IH; discriminate|].
  destruct buf; [congruence | apply IH; discriminate | apply IH; discriminate].
Qed.

Lemma scanTail_sep c t :
  (negb (Ascii.eqb c "-") && negb (Ascii.eqb c "+"))%bool = false ->
  scanTail (map snd (utf8.range (String c t))) bufNil [] [] <> None.
Proof.
  intros H. unfold utf8.range. cbn [utf8.rangeFrom].
  assert (Hc : c = "-"%char \/ c = "+"%char).
  { destruct (Ascii.eqb c "-") eqn:E1; [left; now apply Ascii.eqb_eq|].
    destruct (Ascii.eqb c "+") eqn:E2; [right; now apply Ascii.eqb_eq|discriminate]. }
  destruct Hc; subst c; rewrite decode_ascii by (vm_compute; reflexivity);
    cbn [map snd scanTail]; apply scanTail_nonnil; discriminate.
Qed.

(** The numeric fields of the result are those the loop over the parts has
    set; what follows the loop only adds the qualifiers. *)
Lemma parseSemver_inv s sem :
  parseSemver s = Return sem None ->
  exists sem0 tail,
    parseParts 0 (segments s) zeroSemver "" = inr (sem0, tail) /\
    major sem = major sem0 /\ minor sem = minor sem0 /\ patch sem = patch sem0 /\
    (tail = "" -> sem = sem0).
Proof.
  unfold parseSemver, segments. destruct s as [|c0 s1]; [discriminate|].
  destruct (parseParts _ _ _ _) as [[sem0 e]|[sem0 tail]]; [discriminate|].
  intros H. exists sem0, tail. split; [reflexivity|].
  destruct tail as [|t0 t]; [inversion H; subst; auto|].
  destruct (negb (Ascii.eqb t0 "-") && negb (Ascii.eqb t0 "+"))%bool; [discriminate|].
  destruct (scanTail _ _ _ _) as [[p b]|]; [|discriminate].
  inversion H; subst. simpl. repeat split; auto. discriminate.
Qed.

Lemma parseSemver_nonempty_returns s :
  s <> "" -> exists sem err, parseSemver s = Return sem err.
Proof.
  intros Hs. unfold parseSemver. destruct s as [|c0 s1]; [congruence|].
  destruct (parseParts _ _ _ _) as [[sem0 e]|[sem0 tail]]; [eauto|].
  destruct tail as [|t0 t]; [eauto|].
  destruct (negb (Ascii.eqb t0 "-") && negb (Ascii.eqb t0 "+"))%bool eqn:E; [eauto|].
  pose proof (scanTail_sep t0 t E) as Hn.
  destruct (scanTail _ _ _ _) as [[p b]|]; [eauto|congruence].
Qed.

(** ** Numerals: parsing and printing *)

Lemma all_bytes_app p a b :
  all_bytes p (a ++ b) = all_bytes p a && all_bytes p b.
Proof. induction a; simpl; [reflexivity|]. rewrite IHa. now rewrite andb_assoc. Qed.

Lemma digitsValue_lower s : forall n,
  all_bytes strconv.is_digit s = true -> 0 <= n ->
  n * 10 ^ Z.of_nat (String.length s) <= digitsValue s n.
Proof.
  induction s as [|c t IH]; intros n Hd Hn.
  - simpl. lia.
  - cbn [all_bytes] in Hd. apply andb_true_iff in Hd. destruct Hd as [Hc Ht].
    apply is_digit_val in Hc. cbn [digitsValue String.length].
    specialize (IH (n * 10 + (byte_val c - 48)) Ht ltac:(lia)).
    rewrite Nat2Z.inj_succ, Z.pow_succ_r by lia.
    assert (0 <= 10 ^ Z.of_nat (String.length t)) by (apply Z.pow_nonneg; lia).
    nia.
Qed.

Lemma digitsValue_ge s n :
  all_bytes strconv.is_digit s = true -> 0 <= n -> n <= digitsValue s n.
Proof.
  intros Hd Hn. pose proof (digitsValue_lower s n Hd Hn).
  assert (1 <= 10 ^ Z.of_nat (String.length s)) by (apply Z.pow_le_mono_r with (b := 0); lia).
  nia.
Qed.

Lemma parseUintLoop_digits s : forall n,
  all_bytes strconv.is_digit s = true -> 0 <= n -> digitsValue s n <= maxUint64 ->
  strconv.parseUintLoop s n = (digitsValue s n, None).
Proof.
  induction s as [|c t IH]; intros n Hd Hn Hle; [reflexivity|].
  cbn [all_bytes] in Hd. apply andb_true_iff in Hd. destruct Hd as [Hc Ht].
  pose proof Hc as Hv. apply is_digit_val in Hv.
  cbn [digitsValue] in *.
  pose proof (digitsValue_ge t (n * 10 + (byte_val c - 48)) Ht ltac:(lia)).
  rewrite parseUintLoop_step by (auto; lia).
  apply IH; auto; lia.
Qed.

Lemma numeric_inv s :
  numeric s = true ->
  exists c t, s = String c t /\ strconv.is_digit c = true /\
              all_bytes strconv.is_digit s = true.
Proof.
  unfold numeric. destruct s as [|c t]; [discriminate|]. simpl.
  intros H. pose proof H as H'. apply andb_true_iff in H'. destruct H' as [Hc _]. eauto.
Qed.

Lemma digit_not_sign c :
  strconv.is_digit c = true -> Ascii.eqb c "+" = false /\ Ascii.eqb c "-" = false
                               /\ Ascii.eqb c "." = false /\ Ascii.eqb c "v" = false.
Proof.
  intros H. repeat split; apply Ascii.eqb_neq; intros ->; discriminate.
Qed.

Lemma ParseInt_numeric s :
  numeric s = true -> digitsValue s 0 <= maxInt64 ->
  strconv.ParseInt s = (digitsValue s 0, None).
Proof.
  intros Hn Hle. destruct (numeric_inv s Hn) as (c & t & -> & Hc & Hd).
  destruct (digit_not_sign c Hc) as (Ep & Em & _).
  unfold strconv.ParseInt. rewrite Ep, Em.
  unfold strconv.ParseUint.
  rewrite parseUintLoop_digits by (auto; unfold_consts; lia).
  pose proof (digitsValue_ge (String c t) 0 Hd ltac:(lia)).
  cbv zeta. cbn [negb andb].
  destruct (2 ^ 63 <=? _) eqn:E; [apply Z.leb_le in E; unfold_consts; lia|reflexivity].
Qed.

Lemma fmtBits_step f u acc :
  10 <= u ->
  strconv.fmtBits (S f) u acc =
  strconv.fmtBits f (u / 10) (String (byte_of (48 + u mod 10)) acc).
Proof.
  intros H. cbn [strconv.fmtBits].
  destruct (u <? 10) eqn:E; [apply Z.ltb_lt in E; lia|reflexivity].
Qed.

(** Printing the value of [s] read after the digits of [n] prints [n] and
    then [s], given fuel for the digits of [s]. *)
Lemma fmtBits_digits s : forall n f acc,
  all_bytes strconv.is_digit s = true -> 1 <= n ->
  strconv.fmtBits (String.length s + f) (digitsValue s n) acc =
  strconv.fmtBits f n (s ++ acc).
Proof.
  induction s as [|c t IH]; intros n f acc Hd Hn; [reflexivity|].
  cbn [all_bytes] in Hd. apply andb_true_iff in Hd. destruct Hd as [Hc Ht].
  apply is_digit_val in Hc.
  cbn [digitsValue String.length].
  replace (S (String.length t) + f)%nat with (String.length t + S f)%nat by lia.
  rewrite IH by (auto; lia).
  rewrite fmtBits_step by lia.
  replace ((n * 10 + (byte_val c - 48)) / 10) with n by mod_lia.
  replace (48 + (n * 10 + (byte_val c - 48)) mod 10) with (byte_val c) by mod_lia.
  rewrite byte_of_val. reflexivity.
Qed.

Lemma FormatInt_canonical s :
  canonical s = true -> strconv.FormatInt (digitsValue s 0) = s.
Proof.
  unfold canonical. rewrite !andb_true_iff, negb_true_iff, Z.leb_le.
  intros [[Hn Hz] Hle].
  destruct (numeric_inv s Hn) as (c & t & -> & Hc & Hd).
  cbn [all_bytes] in Hd. apply andb_true_iff in Hd. destruct Hd as [_ Ht].
  pose proof Hc as Hv. apply is_digit_val in Hv.
  cbn [digitsValue] in *. rewrite Z.mul_0_l, Z.add_0_l in *.
  pose proof (digitsValue_ge t (byte_val c - 48) Ht ltac:(lia)) as Hge.
  unfold strconv.FormatInt.
  destruct (_ <? 0) eqn:E; [apply Z.ltb_lt in E; lia|]. clear E.
  destruct (Z.eq_dec (byte_val c) 48) as [E0|N0].
  - (* the numeral is "0" *)
    assert (c = "0"%char) by (apply byte_val_inj; rewrite E0; reflexivity). subst c.
    destruct t as [|d t]; [reflexivity|]. simpl in Hz. discriminate.
  - pose proof (digitsValue_lower t (byte_val c - 48) Ht ltac:(lia)) as Hlow.
    assert (Hlen : (String.length t < 19)%nat).
    { destruct (Nat.lt_ge_cases (String.length t) 19) as [|Hbig]; [assumption|].
      assert (10 ^ 19 <= 10 ^ Z.of_nat (String.length t))
        by (apply Z.pow_le_mono_r; lia).
      change (10 ^ 19) with 10000000000000000000 in *.
      unfold_consts. nia. }
    replace 20%nat with (String.length t + S (19 - String.length t))%nat by lia.
    rewrite fmtBits_digits by (auto; lia).
    cbn [strconv.fmtBits].
    destruct (_ <? 10) eqn:E; [|apply Z.ltb_ge in E; lia].
    replace (48 + (byte_val c - 48)) with (byte_val c) by lia.
    rewrite byte_of_val, append_nil_r. reflexivity.
Qed.

Lemma digit_byte u : 0 <= u < 10 -> strconv.is_digit (byte_of (48 + u)) = true
                                    /\ byte_val (byte_of (48 + u)) - 48 = u.
Proof.
  intros H.
  assert (E : byte_val (byte_of (48 + u)) = 48 + u).
  { unfold byte_of, byte_val. rewrite N_ascii_embedding by lia. lia. }
  split; [apply is_digit_val|]; lia.
Qed.

(** The fuel of [fmtBits] is enough for a number of that many digits, and
    what it prints reads back as the number. *)
Lemma parseUintLoop_fmtBits f : forall u acc,
  0 <= u <= maxUint64 -> u < 10 ^ Z.of_nat (S f) ->
  strconv.parseUintLoop (strconv.fmtBits (S f) u acc) 0 = strconv.parseUintLoop acc u.
Proof.
  induction f as [|f IH]; intros u acc Hu Hf.
  - change (10 ^ Z.of_nat 1) with 10 in Hf. cbn [strconv.fmtBits].
    destruct (u <? 10) eqn:E; [|apply Z.ltb_ge in E; lia].
    destruct (digit_byte u ltac:(lia)) as [Hd Hv].
    rewrite parseUintLoop_step by (auto; unfold_consts; lia).
    f_equal. lia.
  - remember (S f) as f'. cbn [strconv.fmtBits].
    destruct (u <? 10) eqn:E.
    + apply Z.ltb_lt in E. destruct (digit_byte u ltac:(lia)) as [Hd Hv].
      rewrite parseUintLoop_step by (auto; unfold_consts; lia).
      f_equal. lia.
    + apply Z.ltb_ge in E. subst f'.
      assert (Hq : 0 <= u / 10 <= maxUint64) by (unfold_consts; mod_lia).
      assert (Hp : u / 10 < 10 ^ Z.of_nat (S f)).
      { rewrite (Nat2Z.inj_succ (S f)), Z.pow_succ_r in Hf by lia.
        apply Z.div_lt_upper_bound; lia. }
      rewrite (IH (u / 10) _ Hq Hp).
      destruct (digit_byte (u mod 10) ltac:(mod_lia)) as [Hd Hv].
      rewrite parseUintLoop_step by (auto; unfold_consts; mod_lia).
      f_equal. rewrite Hv. mod_lia.
Qed.

Lemma fmtBits_head f u acc :
  0 <= u -> exists c t, strconv.fmtBits (S f) u acc = String c t /\ strconv.is_digit c = true.
Proof.
  revert u acc. induction f as [|f IH]; intros u acc Hu.
  - cbn [strconv.fmtBits]. destruct (u <? 10) eqn:E.
    + apply Z.ltb_lt in E. destruct (digit_byte u ltac:(lia)) as [Hd _]. eauto.
    + destruct (digit_byte (u mod 10) ltac:(mod_lia)) as [Hd _]. eauto.
  - remember (S f) as f'. cbn [strconv.fmtBits]. destruct (u <? 10) eqn:E.
    + apply Z.ltb_lt in E. destruct (digit_byte u ltac:(lia)) as [Hd _]. eauto.
    + subst f'. apply IH. mod_lia.
Qed.

(** What [%d] prints for an [int], [strconv.ParseInt] reads back. *)
Lemma ParseInt_FormatInt i :
  minInt64 <= i <= maxInt64 -> strconv.ParseInt (strconv.FormatInt i) = (i, None).
Proof.
  intros Hi. unfold strconv.FormatInt.
  assert (H20 : 2 ^ 64 < 10 ^ Z.of_nat 20) by (vm_compute; reflexivity).
  destruct (i <? 0) eqn:E.
  - apply Z.ltb_lt in E.
    destruct (fmtBits_head 19 (- i) "" ltac:(lia)) as (c & t & Ec & Hc).
    unfold strconv.ParseInt. cbn [Ascii.eqb Bool.eqb]. cbv iota.
    unfold strconv.ParseUint.
    pose proof (parseUintLoop_fmtBits 19 (- i) "" ltac:(unfold_consts; lia)
                  ltac:(unfold_consts; lia)) as HP.
    rewrite Ec in *. rewrite HP. cbn [strconv.parseUintLoop]. cbv zeta.
    cbn [negb andb].
    destruct (2 ^ 63 <? - i) eqn:E2; [apply Z.ltb_lt in E2; unfold_consts; lia|].
    f_equal. lia.
  - apply Z.ltb_ge in E.
    destruct (fmtBits_head 19 i "" E) as (c & t & Ec & Hc).
    pose proof (parseUintLoop_fmtBits 19 i "" ltac:(unfold_consts; lia)
                  ltac:(unfold_consts; lia)) as HP.
    rewrite Ec in *. destruct (digit_not_sign c Hc) as (Ep & Em & _).
    unfold strconv.ParseInt. rewrite Ep, Em. unfold strconv.ParseUint.
    rewrite HP. cbn [strconv.parseUintLoop]. cbv zeta. cbn [negb andb].
    destruct (2 ^ 63 <=? i) eqn:E2; [apply Z.leb_le in E2; unfold_consts; lia|].
    reflexivity.
Qed.

(** ** The parts of a well-formed text *)

Lemma Cut_app a sep r :
  all_bytes (fun c => negb (Ascii.eqb c sep)) a = true ->
  strings.Cut (a ++ String sep r) sep = Some (a, r).
Proof.
  induction a as [|c t IH]; simpl.
  - intros _. now rewrite Ascii.eqb_refl.
  - rewrite andb_true_iff, negb_true_iff. intros [Hc Ht].
    rewrite Hc, (IH Ht). reflexivity.
Qed.

Lemma all_bytes_impl (p q : ascii -> bool) s :
  (forall c, p c = true -> q c = true) -> all_bytes p s = true -> all_bytes q s = true.
Proof.
  intros Hpq. induction s as [|c t IH]; simpl; [auto|].
  rewrite !andb_true_iff. intros [Hc Ht]. auto.
Qed.

Lemma digits_no_dot s :
  all_bytes strconv.is_digit s = true ->
  all_bytes (fun c => negb (Ascii.eqb c ".")) s = true.
Proof.
  apply all_bytes_impl. intros c Hc.
  destruct (digit_not_sign c Hc) as (_ & _ & E & _). now rewrite E.
Qed.

Lemma SplitN_three a b rest :
  all_bytes strconv.is_digit a = true -> all_bytes strconv.is_digit b = true ->
  strings.SplitN (a ++ "." ++ b ++ "." ++ rest) "." 3 = [a; b; rest].
Proof.
  intros Ha Hb. unfold strings.SplitN. cbn [strings.genSplit].
  change (a ++ "." ++ b ++ "." ++ rest) with (a ++ String "." (b ++ String "." rest)).
  rewrite Cut_app by now apply digits_no_dot.
  rewrite Cut_app by now apply digits_no_dot.
  reflexivity.
Qed.

(** The [range] clause on ASCII text *)

Lemma rangeFrom_ascii c t i :
  byte_val c < 128 ->
  utf8.rangeFrom (String c t) i 0 = (i, byte_val c) :: utf8.rangeFrom t (S i) 0.
Proof.
  intros H. cbn [utf8.rangeFrom]. rewrite decode_ascii by assumption. reflexivity.
Qed.


Lemma firstNonDigit_digits c t : forall i,
  all_bytes strconv.is_digit c = true -> startsNonDigit t = true ->
  firstNonDigit (utf8.rangeFrom (c ++ t) i 0) =
  if is_empty t then None else Some (i + String.length c)%nat.
Proof.
  induction c as [|d c IH]; intros i Hd Ht.
  - cbn [append String.length]. destruct t as [|e t]; [reflexivity|].
    cbn [startsNonDigit] in Ht. apply andb_true_iff in Ht. destruct Ht as [Ha Hn].
    apply Z.ltb_lt in Ha. rewrite rangeFrom_ascii by assumption.
    cbn [firstNonDigit is_empty].
    replace (is_digit_rune (byte_val e)) with (strconv.is_digit e) by reflexivity.
    rewrite Hn. cbn [negb]. f_equal. lia.
  - cbn [all_bytes] in Hd. apply andb_true_iff in Hd. destruct Hd as [Hc Hd].
    pose proof Hc as Hv. apply is_digit_val in Hv.
    cbn [append String.length]. rewrite rangeFrom_ascii by lia.
    cbn [firstNonDigit].
    replace (is_digit_rune (byte_val d)) with (strconv.is_digit d) by reflexivity.
    rewrite Hc. cbn [negb]. rewrite IH by assumption.
    destruct (is_empty t); [reflexivity|]. f_equal. lia.
Qed.

Lemma splitTail_digits c t :
  all_bytes strconv.is_digit c = true -> startsNonDigit t = true ->
  splitTail (c ++ t) = (c, t).
Proof.
  intros Hd Ht. unfold splitTail, utf8.range.
  rewrite firstNonDigit_digits by assumption.
  destruct t as [|e t]; cbn [is_empty].
  - now rewrite append_nil_r.
  - cbn [Nat.add]. now rewrite take_app, drop_app.
Qed.

(** Qualifiers *)


Lemma identByte_inv c :
  identByte c = true ->
  byte_val c < 128 /\ (byte_val c =? 45) = false /\ (byte_val c =? 43) = false.
Proof.
  unfold identByte. rewrite !andb_true_iff, !negb_true_iff, Z.ltb_lt.
  intros [[Ha Hm] Hp]. split; [assumption|].
  split; apply Z.eqb_neq; intros E.
  - apply Ascii.eqb_neq in Hm. apply Hm. apply byte_val_inj. now rewrite E.
  - apply Ascii.eqb_neq in Hp. apply Hp. apply byte_val_inj. now rewrite E.
Qed.

(** Scanning a qualifier appends its bytes to the buffer in use. *)
Lemma scanTail_ident q rest : forall i buf prebuf buildbuf,
  all_bytes identByte q = true -> buf <> bufNil ->
  scanTail (map snd (utf8.rangeFrom (q ++ rest) i 0)) buf prebuf buildbuf =
  scanTail (map snd (utf8.rangeFrom rest (i + String.length q) 0)) buf
    (if match buf with bufPre => true | _ => false end
     then prebuf ++ runes_of q else prebuf)%list
    (if match buf with bufBuild => true | _ => false end
     then buildbuf ++ runes_of q else buildbuf)%list.
Proof.
  induction q as [|c q IH]; intros i buf prebuf buildbuf Hq Hb.
  - cbn [append String.length runes_of]. rewrite Nat.add_0_r, !app_nil_r.
    destruct buf; reflexivity.
  - cbn [all_bytes] in Hq. apply andb_true_iff in Hq. destruct Hq as [Hc Hq].
    destruct (identByte_inv c Hc) as (Ha & Hm & Hp).
    cbn [append String.length runes_of]. rewrite rangeFrom_ascii by assumption.
    cbn [map snd scanTail]. rewrite Hm, Hp.
    destruct buf; [congruence| |]; rewrite IH by (auto; discriminate);
      replace (S i + String.length q)%nat with (i + S (String.length q))%nat by lia;
      cbn [app]; rewrite <- ?app_assoc; reflexivity.
Qed.

Lemma string_of_runes_ascii q :
  all_bytes (fun c => byte_val c <? 128) q = true ->
  utf8.string_of_runes (runes_of q) = q.
Proof.
  induction q as [|c q IH]; cbn [all_bytes runes_of utf8.string_of_runes]; [reflexivity|].
  rewrite andb_true_iff, Z.ltb_lt. intros [Hc Hq]. rewrite (IH Hq).
  pose proof (byte_val_range c) as Hr.
  unfold utf8.EncodeRune, utf8.ValidRune, utf8.between.
  replace (0 <=? byte_val c) with true by (symmetry; apply Z.leb_le; lia).
  replace (byte_val c <=? 55295) with true by (symmetry; apply Z.leb_le; lia).
  cbn [andb orb].
  replace (byte_val c <? 128) with true by (symmetry; apply Z.ltb_lt; lia).
  rewrite byte_of_val. reflexivity.
Qed.

Lemma ident_ascii q :
  all_bytes identByte q = true -> all_bytes (fun c => byte_val c <? 128) q = true.
Proof.
  apply all_bytes_impl. intros c Hc. destruct (identByte_inv c Hc) as [H _].
  now apply Z.ltb_lt.
Qed.

Lemma qualifier_inv s :
  qualifier (Some s) = true ->
  is_empty s = false /\ all_bytes identByte s = true.
Proof.
  unfold qualifier. rewrite andb_true_iff, negb_true_iff. tauto.
Qed.

(** The tail loop on the qualifier text of a well-formed version. *)
Lemma scanTail_qualifiers (p m : option string) :
  qualifier p = true -> qualifier m = true ->
  match opt_part "-" p ++ opt_part "+" m with
  | EmptyString => p = None /\ m = None
  | String t0 _ as tail =>
      (negb (Ascii.eqb t0 "-") && negb (Ascii.eqb t0 "+"))%bool = false /\
      scanTail (map snd (utf8.range tail)) bufNil [] [] =
      Some (runes_of (match p with Some s => s | None => "" end),
            runes_of (match m with Some s => s | None => "" end))
  end.
Proof.
  intros Hp Hm. unfold utf8.range.
  assert (Hend : forall i buf a b, scanTail (map snd (utf8.rangeFrom "" i 0)) buf a b
                                   = Some (a, b)) by reflexivity.
  destruct p as [p|], m as [m|]; cbn [opt_part append].
  - destruct (qualifier_inv _ Hp) as [_ Hpi].
    destruct (qualifier_inv _ Hm) as [_ Hmi].
    split; [reflexivity|].
    rewrite rangeFrom_ascii by (vm_compute; reflexivity).
    cbn [map snd scanTail]. change (byte_val "-" =? 45) with true. cbv iota.
    rewrite (scanTail_ident p (String "+" m)) by (auto; discriminate).
    rewrite rangeFrom_ascii by (vm_compute; reflexivity).
    cbn [map snd scanTail]. change (byte_val "+" =? 45) with false.
    change (byte_val "+" =? 43) with true. cbv iota.
    rewrite <- (append_nil_r m) at 1.
    rewrite (scanTail_ident m "") by (auto; discriminate).
    rewrite Hend. reflexivity.
  - destruct (qualifier_inv _ Hp) as [_ Hpi].
    split; [reflexivity|]. rewrite append_nil_r.
    rewrite rangeFrom_ascii by (vm_compute; reflexivity).
    cbn [map snd scanTail]. change (byte_val "-" =? 45) with true. cbv iota.
    rewrite <- (append_nil_r p) at 1.
    rewrite (scanTail_ident p "") by (auto; discriminate).
    rewrite Hend. reflexivity.
  - destruct (qualifier_inv _ Hm) as [_ Hmi].
    split; [reflexivity|].
    rewrite rangeFrom_ascii by (vm_compute; reflexivity).
    cbn [map snd scanTail]. change (byte_val "+" =? 45) with false.
    change (byte_val "+" =? 43) with true. cbv iota.
    rewrite <- (append_nil_r m) at 1.
    rewrite (scanTail_ident m "") by (auto; discriminate).
    rewrite Hend. reflexivity.
  - auto.
Qed.

Lemma canonical_numeric s :
  canonical s = true -> numeric s = true /\ digitsValue s 0 <= maxInt64.
Proof.
  unfold canonical. rewrite !andb_true_iff, Z.leb_le. tauto.
Qed.

Lemma tail_startsNonDigit p m :
  startsNonDigit (opt_part "-" p ++ opt_part "+" m) = true.
Proof. destruct p, m; reflexivity. Qed.

Lemma parseSemver_render (withV : bool) (t : versionText) :
  wellFormed canonical t = true ->
  parseSemver (render withV t) = Return (denotes t) None.
Proof.
  unfold wellFormed. rewrite !andb_true_iff.
  intros [[[[H1 H2] H3] Hp] Hm].
  destruct t as [a b c p m]; cbn [seg1 seg2 seg3 pre meta] in *.
  destruct (canonical_numeric _ H1) as [N1 R1].
  destruct (canonical_numeric _ H2) as [N2 R2].
  destruct (canonical_numeric _ H3) as [N3 R3].
  destruct (numeric_inv _ N1) as (d & a' & Ea & Hd & D1).
  destruct (numeric_inv _ N2) as (_ & _ & _ & _ & D2).
  destruct (numeric_inv _ N3) as (_ & _ & _ & _ & D3).
  set (tail := opt_part "-" p ++ opt_part "+" m).
  assert (Hparts : match render withV (mkText a b c p m) with
                   | EmptyString => False
                   | String c0 s1 =>
                       strings.SplitN (if Ascii.eqb c0 "v" then s1
                                       else render withV (mkText a b c p m)) "." 3
                       = [a; b; c ++ tail]
                   end).
  { unfold render; cbn [seg1 seg2 seg3 pre meta]. destruct withV.
    - cbn [append]. rewrite Ascii.eqb_refl. now apply SplitN_three.
    - rewrite Ea in *. cbn [append].
      destruct (digit_not_sign d Hd) as (_ & _ & _ & Ev). rewrite Ev.
      now apply (SplitN_three (String d a')). }
  unfold parseSemver. destruct (render withV _) as [|c0 s1]; [contradiction|].
  rewrite Hparts. cbn [parseParts Nat.eqb].
  rewrite (ParseInt_numeric a), (ParseInt_numeric b) by assumption.
  rewrite splitTail_digits by (assumption || apply tail_startsNonDigit).
  rewrite (ParseInt_numeric c) by assumption.
  pose proof (scanTail_qualifiers p m Hp Hm) as HT. fold tail in HT.
  destruct tail as [|t0 tl].
  - destruct HT as [-> ->]. reflexivity.
  - destruct HT as [-> ->].
    rewrite !string_of_runes_ascii.
    + reflexivity.
    + destruct m as [m|]; [|reflexivity].
      apply ident_ascii. now apply qualifier_inv.
    + destruct p as [p|]; [|reflexivity].
      apply ident_ascii. now apply qualifier_inv.
Qed.

Lemma String_denotes (t : versionText) :
  wellFormed canonical t = true -> String_ (denotes t) = render true t.
Proof.
  unfold wellFormed. rewrite !andb_true_iff.
  intros [[[[H1 H2] H3] Hp] Hm].
  destruct t as [a b c p m]; cbn [seg1 seg2 seg3 pre meta] in *.
  unfold String_, denotes, render;
    cbn [major minor patch prerelease build seg1 seg2 seg3 pre meta].
  rewrite !FormatInt_canonical by assumption.
  destruct p as [p|], m as [m|]; cbn [opt_text opt_part].
  - destruct (qualifier_inv p Hp) as [-> _].
    destruct (qualifier_inv m Hm) as [-> _].
    autorewrite with appends. reflexivity.
  - destruct (qualifier_inv p Hp) as [-> _].
    cbn [is_empty]. autorewrite with appends. reflexivity.
  - destruct (qualifier_inv m Hm) as [-> _].
    cbn [is_empty]. autorewrite with appends. reflexivity.
  - cbn [is_empty]. autorewrite with appends. reflexivity.
Qed.

(** ** The round trip *)

(** C1 (amended).  For every version text whose three segments are decimal
    numerals without leading zeros and at most the largest [int], and
    whose prerelease and build, when present, are non-empty runs of ASCII
    bytes other than [-] and [+]: parsing the text, with or without its
    leading [v], and rendering the result gives the text with its leading
    [v]. *)
Theorem roundTrip_canonical (withV : bool) (t : versionText) :
  wellFormed canonical t = true ->
  roundTrip (render withV t) = Some (render true t).
Proof.
  intros H. unfold roundTrip.
  rewrite parseSemver_render by assumption.
  now rewrite String_denotes.
Qed.

Lemma roundTrip_canonical_witness :
  roundTrip "1.20.3-rc.1+1a2b3c4" = Some "v1.20.3-rc.1+1a2b3c4".
Proof.
  apply (roundTrip_canonical false (mkText "1" "20" "3" (Some "rc.1") (Some "1a2b3c4"))).
  reflexivity.
Defined.

(** C1 as stated fails: a segment with a leading zero is numeric, and is
    rendered without the zero; a segment above the largest [int] is
    numeric, and is not parsed at all. *)
Lemma roundTrip_leading_zero :
  wellFormed numeric (mkText "01" "2" "3" None None) = true /\
  render true (mkText "01" "2" "3" None None) = "v01.2.3" /\
  roundTrip "v01.2.3" = Some "v1.2.3" /\
  wellFormed numeric (mkText "9223372036854775808" "0" "0" None None) = true /\
  roundTrip (render true (mkText "9223372036854775808" "0" "0" None None)) = None.
Proof. repeat split. Qed.

(** Below the largest [int], [++] adds one. *)
Lemma wrapInt_succ n : minInt64 <= n < maxInt64 -> wrapInt (n + 1) = n + 1.
Proof.
  intros H. unfold_consts. rewrite Z.mod_small; lia.
Qed.

(** ** Claims about the version model *)

(** C2.  Whatever the version and the kind of bump, [bump] leaves
    [prerelease] and [build] empty; a patch bump increments [patch] and
    keeps [major] and [minor]; a minor bump increments [minor], sets [patch]
    to 0 and keeps [major]; a major bump increments [major] and sets
    [minor] and [patch] to 0.  The increment is that of Go's [int]: one
    more, below the largest [int]. *)
Theorem bump_spec (sem : semver) :
  bump sem version.patch
    = mkSemver (major sem) (minor sem) (wrapInt (patch sem + 1)) "" "" /\
  bump sem version.minor
    = mkSemver (major sem) (wrapInt (minor sem + 1)) 0 "" "" /\
  bump sem version.major
    = mkSemver (wrapInt (major sem + 1)) 0 0 "" "" /\
  (forall v, prerelease (bump sem v) = "" /\ build (bump sem v) = "") /\
  (forall n, minInt64 <= n < maxInt64 -> wrapInt (n + 1) = n + 1).
Proof.
  split; [reflexivity|]. split; [reflexivity|]. split; [reflexivity|].
  split; [|exact wrapInt_succ].
  intros v. unfold bump.
  destruct (N.eqb v version.patch), (N.eqb v version.minor),
    (N.eqb v version.major); split; reflexivity.
Qed.

Lemma bump_spec_witness :
  bump (mkSemver 0 0 1 "alpha" "1a2b3c4") version.patch = mkSemver 0 0 2 "" "".
Proof.
  destruct (bump_spec (mkSemver 0 0 1 "alpha" "1a2b3c4")) as (Hp & _ & _ & _ & Hw).
  rewrite Hp. cbn [major minor patch].
  rewrite Hw by (unfold minInt64, maxInt64; lia). reflexivity.
Defined.

(** C10.  [parseSemver] panics on the empty string, where it indexes
    [s[0]] without a guard, and on no other input: every non-empty input
    makes it return, with a version or with an error. *)
Theorem parseSemver_panics_iff (s : string) :
  (exists msg, parseSemver s = Panic msg) <-> s = "".
Proof.
  split.
  - intros [msg H]. destruct s as [|c t]; [reflexivity|].
    destruct (parseSemver_nonempty_returns (String c t)) as (sem & err & E);
      [discriminate|congruence].
  - intros ->. simpl. eauto.
Qed.

Lemma parseSemver_panics_iff_witness :
  exists msg, parseSemver "" = Panic msg.
Proof.
  apply (proj2 (parseSemver_panics_iff "")). reflexivity.
Defined.

(** C5 (amended).  When [parseSemver] succeeds, [patch] is a non-negative
    integer, and [major] and [minor] are integers of the range of [int]
    that are negative only if their segment is written with a leading
    minus sign, which [strconv.ParseInt] accepts. *)
Theorem parseSemver_numeric_fields (s : string) (sem : semver) :
  parseSemver s = Return sem None ->
  0 <= patch sem <= maxInt64 /\
  minInt64 <= major sem <= maxInt64 /\
  minInt64 <= minor sem <= maxInt64 /\
  (major sem < 0 -> exists t, nth 0 (segments s) "" = String "-" t) /\
  (minor sem < 0 -> exists t, nth 1 (segments s) "" = String "-" t).
Proof.
  intros H.
  assert (Hs : s <> "") by (intros ->; discriminate).
  destruct (parseSemver_inv _ _ H) as (sem0 & tail & HP & -> & -> & -> & _).
  assert (Hz : minInt64 <= 0 <= maxInt64) by (unfold_consts; lia).
  destruct (segments_shape s Hs) as [(a & E)|[(a & b & E)|(a & b & c & E)]];
    rewrite E in *; cbn in HP;
    destruct (strconv.ParseInt a) as [n [e|]] eqn:Ea; try discriminate;
    destruct (ParseInt_ok _ _ Ea) as [Ra Na].
  - inversion HP; subst; cbn; unfold_consts; repeat split; auto; try lia; intros; lia.
  - destruct (strconv.ParseInt b) as [m [e|]] eqn:Eb; try discriminate.
    destruct (ParseInt_ok _ _ Eb) as [Rb Nb].
    inversion HP; subst; cbn; unfold_consts; repeat split; auto; try lia; intros; lia.
  - destruct (strconv.ParseInt b) as [m [e|]] eqn:Eb; try discriminate.
    destruct (ParseInt_ok _ _ Eb) as [Rb Nb].
    destruct (splitTail c) as [p t] eqn:Es.
    destruct (strconv.ParseInt p) as [k [e|]] eqn:Ep; try discriminate.
    assert (Hk : 0 <= k <= maxInt64).
    { apply (splitTail_nonneg c). rewrite Es. exact Ep. }
    inversion HP; subst; cbn; unfold_consts; repeat split; auto; try lia; intros; lia.
Qed.

Lemma parseSemver_numeric_fields_witness :
  0 <= patch (mkSemver (-1) 2 3 "rc1" "") <= maxInt64 /\
  minInt64 <= major (mkSemver (-1) 2 3 "rc1" "") <= maxInt64 /\
  minInt64 <= minor (mkSemver (-1) 2 3 "rc1" "") <= maxInt64 /\
  (major (mkSemver (-1) 2 3 "rc1" "") < 0 ->
   exists t, nth 0 (segments "v-1.2.3-rc1") "" = String "-" t) /\
  (minor (mkSemver (-1) 2 3 "rc1" "") < 0 ->
   exists t, nth 1 (segments "v-1.2.3-rc1") "" = String "-" t).
Proof.
  apply (parseSemver_numeric_fields "v-1.2.3-rc1"). reflexivity.
Defined.

(** C5 as stated fails: a signed first segment gives a negative [major]. *)
Lemma parseSemver_negative_major :
  parseSemver "-1.2.3" = Return (mkSemver (-1) 2 3 "" "") None /\
  major (mkSemver (-1) 2 3 "" "") < 0.
Proof. split; [reflexivity | reflexivity]. Qed.

(** C6 (amended).  On a non-empty input with fewer than three segments,
    [parseSemver] succeeds exactly when every segment present parses as an
    integer; the fields without a segment are then 0 and the qualifiers
    empty.  When it fails, the error is that of [strconv.ParseInt] on one
    of the segments. *)
Theorem parseSemver_short (s : string) :
  s <> "" -> (List.length (segments s) < 3)%nat ->
  ((exists sem, parseSemver s = Return sem None) <-> Forall parsesAsInt (segments s)) /\
  (forall sem, parseSemver s = Return sem None ->
     match segments s with
     | [a] => sem = mkSemver (fst (strconv.ParseInt a)) 0 0 "" ""
     | [a; b] =>
         sem = mkSemver (fst (strconv.ParseInt a)) (fst (strconv.ParseInt b)) 0 "" ""
     | _ => False
     end) /\
  (forall sem err, parseSemver s = Return sem (Some err) ->
     exists part, In part (segments s) /\ snd (strconv.ParseInt part) = Some err).
Proof.
  intros Hs Hlen.
  assert (HP : parseSemver s =
    match parseParts 0 (segments s) zeroSemver "" with
    | inl (sem, err) => Return sem (Some err)
    | inr (sem, "") => Return sem None
    | inr (sem, String _ _) => parseSemver s
    end).
  { destruct s as [|c0 s1]; [congruence|]. unfold parseSemver, segments.
    destruct (parseParts _ _ _ _) as [[? ?]|[? [|? ?]]]; reflexivity. }
  unfold parsesAsInt.
  destruct (segments_shape s Hs) as [(a & E)|[(a & b & E)|(a & b & c & E)]];
    rewrite E in *; [| |simpl in Hlen; lia]; cbn in HP;
    destruct (strconv.ParseInt a) as [n [e|]] eqn:Ea.
  - rewrite HP. split; [|split].
    + split; [intros [sem H]; discriminate|].
      intros H. inversion H; subst. rewrite Ea in *. discriminate.
    + intros sem H; discriminate.
    + intros sem err H. inversion H; subst. exists a. rewrite Ea. simpl; auto.
  - rewrite HP. split; [|split].
    + split; [|eauto]. intros _. constructor; [now rewrite Ea|constructor].
    + intros sem H. inversion H; subst. reflexivity.
    + intros sem err H; discriminate.
  - rewrite HP. split; [|split].
    + split; [intros [sem H]; discriminate|].
      intros H. inversion H; subst. rewrite Ea in *. discriminate.
    + intros sem H; discriminate.
    + intros sem err H. inversion H; subst. exists a. rewrite Ea. simpl; auto.
  - destruct (strconv.ParseInt b) as [m [e|]] eqn:Eb; rewrite HP; (split; [|split]).
    + split; [intros [sem H]; discriminate|].
      intros H. inversion H as [|? ? _ H2]; subst. inversion H2; subst.
      rewrite Eb in *. discriminate.
    + intros sem H; discriminate.
    + intros sem err H. inversion H; subst. exists b. rewrite Eb. simpl; auto.
    + split; [|eauto]. intros _.
      constructor; [now rewrite Ea|constructor; [now rewrite Eb|constructor]].
    + intros sem H. inversion H; subst. reflexivity.
    + intros sem err H; discriminate.
Qed.

Lemma parseSemver_short_witness :
  ((exists sem, parseSemver "1.2" = Return sem None)
   <-> Forall parsesAsInt (segments "1.2")) /\
  (forall sem, parseSemver "1.2" = Return sem None ->
     match segments "1.2" with
     | [a] => sem = mkSemver (fst (strconv.ParseInt a)) 0 0 "" ""
     | [a; b] =>
         sem = mkSemver (fst (strconv.ParseInt a)) (fst (strconv.ParseInt b)) 0 "" ""
     | _ => False
     end) /\
  (forall sem err, parseSemver "1.2" = Return sem (Some err) ->
     exists part, In part (segments "1.2") /\ snd (strconv.ParseInt part) = Some err).
Proof.
  apply (parseSemver_short "1.2"); [discriminate | simpl; lia].
Defined.

(** C6 as stated fails: two segments parse, with [patch] 0. *)
Lemma parseSemver_two_segments :
  segments "1.2" = ["1"; "2"] /\
  parseSemver "1.2" = Return (mkSemver 1 2 0 "" "") None.
Proof. split; reflexivity. Qed.

(** ** Lines *)

Lemma Cut_none s sep :
  all_bytes (fun c => negb (Ascii.eqb c sep)) s = true -> strings.Cut s sep = None.
Proof.
  induction s as [|c t IH]; simpl; [reflexivity|].
  rewrite andb_true_iff, negb_true_iff. intros [Hc Ht]. now rewrite Hc, (IH Ht).
Qed.

Lemma firstLine_cut line rest :
  hasNoLF line = true -> firstLine (line ++ String LF rest) = line.
Proof.
  intros H. unfold firstLine, strings.Split.
  destruct (String.length (line ++ String LF rest)) as [|n] eqn:E.
  - destruct line; discriminate.
  - cbn [strings.genSplit]. now rewrite Cut_app.
Qed.

Lemma firstLine_whole line : hasNoLF line = true -> firstLine line = line.
Proof.
  intros H. unfold firstLine, strings.Split.
  destruct (String.length line); cbn [strings.genSplit]; [reflexivity|].
  now rewrite Cut_none.
Qed.

Lemma hasNoLF_snoc cur c :
  hasNoLF cur = true -> Ascii.eqb c LF = false -> hasNoLF (cur ++ String c "") = true.
Proof.
  intros H Hc. unfold hasNoLF in *. rewrite all_bytes_app, H. simpl. now rewrite Hc.
Qed.

Lemma hasNoLF_dropCR s : hasNoLF s = true -> hasNoLF (bufio.dropCR s) = true.
Proof.
  unfold hasNoLF. induction s as [|c t IH]; [reflexivity|].
  cbn [all_bytes]. rewrite andb_true_iff. intros [Hc Ht].
  destruct t as [|d t].
  - cbn [bufio.dropCR]. destruct (Ascii.eqb c "013"); [reflexivity|].
    cbn [all_bytes]. now rewrite Hc.
  - change (bufio.dropCR (String c (String d t)))
      with (String c (bufio.dropCR (String d t))).
    cbn [all_bytes]. rewrite Hc. exact (IH Ht).
Qed.

(** No line the scanner yields holds a newline. *)
Lemma scanFrom_noLF data : forall cur,
  hasNoLF cur = true -> Forall (fun l => hasNoLF l = true) (fst (bufio.scanFrom data cur)).
Proof.
  induction data as [|c t IH]; intros cur Hcur; cbn [bufio.scanFrom].
  - destruct (is_empty cur); [constructor|].
    destruct (bufio.tooLong cur); [constructor|].
    constructor; [now apply hasNoLF_dropCR|constructor].
  - destruct (Ascii.eqb c LF) eqn:Ec.
    + destruct (bufio.tooLong cur); [constructor|].
      specialize (IH "" eq_refl).
      destruct (bufio.scanFrom t "") as [ls e]. cbn [fst] in *.
      constructor; [now apply hasNoLF_dropCR|assumption].
    + apply IH. now apply hasNoLF_snoc.
Qed.

Lemma textLines_line line : forall cur rest,
  hasNoLF line = true ->
  textLines (line ++ String LF rest) cur = (cur ++ line) :: textLines rest "".
Proof.
  induction line as [|c t IH]; intros cur rest H.
  - cbn. now rewrite append_nil_r.
  - unfold hasNoLF in H. cbn [all_bytes] in H.
    apply andb_true_iff in H. destruct H as [Hc Ht]. apply negb_true_iff in Hc.
    cbn [append textLines]. rewrite Hc. rewrite (IH _ _ Ht).
    rewrite append_assoc. reflexivity.
Qed.

Lemma collectNotes_acc lines : forall buf,
  collectNotes lines buf = buf ++ collectNotes lines "".
Proof.
  induction lines as [|l ls IH]; intros buf; cbn [collectNotes].
  - now rewrite append_nil_r.
  - destruct (isComment l); [apply IH|].
    rewrite (IH (buf ++ _)), (IH ("" ++ _)). cbn [append].
    now rewrite append_assoc.
Qed.

Lemma collectNotes_textLines lines :
  Forall (fun l => hasNoLF l = true) lines ->
  textLines (collectNotes lines "") "" = filter (fun l => negb (isComment l)) lines.
Proof.
  induction 1 as [|l ls Hl _ IH]; [reflexivity|].
  cbn [collectNotes filter]. destruct (isComment l); cbn [negb]; [exact IH|].
  rewrite collectNotes_acc. cbn [append]. rewrite append_assoc.
  cbn [append]. rewrite textLines_line by assumption. cbn [append]. now rewrite IH.
Qed.

Lemma length_snoc x c : String.length (x ++ String c "") = S (String.length x).
Proof. induction x; simpl; congruence. Qed.

Lemma HasSuffix1_snoc x c : strings.HasSuffix1 (x ++ String c "") c = true.
Proof.
  induction x as [|d x IH]; cbn [append strings.HasSuffix1].
  - apply Ascii.eqb_refl.
  - destruct (x ++ String c "") eqn:E; [destruct x; discriminate|exact IH].
Qed.

Lemma TrimSuffix_snoc x c : strings.TrimSuffix (x ++ String c "") c = x.
Proof.
  unfold strings.TrimSuffix. rewrite HasSuffix1_snoc, length_snoc.
  cbn [Nat.sub]. rewrite Nat.sub_0_r. apply take_app.
Qed.

(** The test of the loop, [len(line) > 0 && line[0] == '#'], is that the
    line starts with [#]. *)
Lemma isComment_prefix l : isComment l = String.prefix "#" l.
Proof.
  destruct l as [|c t]; [reflexivity|]. cbn [isComment String.prefix].
  destruct (ascii_dec "#" c) as [E|N].
  - subst. destruct t; reflexivity.
  - apply Ascii.eqb_neq. congruence.
Qed.

Lemma prefix_hash l : String.prefix "#" l = true <-> exists t, l = String "#" t.
Proof.
  rewrite <- isComment_prefix. destruct l as [|c t]; cbn [isComment].
  - split; [discriminate|intros [t H]; discriminate].
  - rewrite Ascii.eqb_eq. split; [intros ->; eauto|intros [t' H]; congruence].
Qed.

(** What the loop writes to [buf]: the lines that do not start with [#],
    each followed by a newline. *)
Lemma collectNotes_unlines lines :
  collectNotes lines "" = unlines (filter (fun l => negb (String.prefix "#" l)) lines).
Proof.
  induction lines as [|l ls IH]; [reflexivity|].
  cbn [collectNotes filter]. rewrite <- isComment_prefix.
  destruct (isComment l); cbn [negb]; [exact IH|].
  rewrite collectNotes_acc, IH. cbn [append unlines].
  now rewrite append_assoc.
Qed.

(** When [notes] goes on, the file was created, the scanner met no error,
    and the notes are collected from the lines read back. *)
Lemma notes_next w sem st f buf st' :
  notes w sem st = (Next (f, buf), st') ->
  CreateTemp w "release-*" = inl f /\
  buf = collectNotes (editedLines w f) "" /\
  snd (bufio.ScanLines (snd (terminal w [Getenv w "EDITOR"; f] notesPreamble))) = None.
Proof.
  unfold notes, bind, emit, defer, openInEditor, leave, ret, editedLines. cbn.
  destruct (CreateTemp w "release-*") as [f0|err]; [|discriminate].
  destruct (is_empty (Getenv w "EDITOR")); [discriminate|]. cbn.
  destruct (terminal w [Getenv w "EDITOR"; f0] notesPreamble) as [p edited] eqn:ET. cbn.
  destruct (run_err p); [discriminate|].
  destruct (bufio.ScanLines edited) as [lines [e|]] eqn:ES; [discriminate|].
  intros H; inversion H; subst. rewrite ET. cbn [snd]. rewrite ES. auto.
Qed.

(** ** Claims about the pipeline *)

(** C8.  Whatever the editor leaves in the notes file, the notes that
    [release] collects from it hold, line for line and in their order, the
    lines read back from the file whose first character is not [#], empty
    lines included: no line of the collected notes starts with [#], and
    every other line of the file is a line of them. *)
Theorem notes_strip_comments (w : world) (sem : semver) (st st' : pstate)
  (f buf : string) :
  notes w sem st = (Next (f, buf), st') ->
  textLines buf "" = filter (fun l => negb (String.prefix "#" l)) (editedLines w f) /\
  Forall (fun l => forall t, l <> String "#" t) (textLines buf "") /\
  (forall l, In l (editedLines w f) -> (forall t, l <> String "#" t) ->
             In l (textLines buf "")).
Proof.
  intros H. destruct (notes_next _ _ _ _ _ _ H) as (_ & -> & _).
  assert (E : textLines (collectNotes (editedLines w f) "") ""
              = filter (fun l => negb (String.prefix "#" l)) (editedLines w f)).
  { rewrite collectNotes_textLines by (apply scanFrom_noLF; reflexivity).
    apply filter_ext. intros l. now rewrite isComment_prefix. }
  rewrite E. split; [reflexivity|]. split.
  - apply Forall_forall. intros l Hl t ->. apply filter_In in Hl.
    destruct Hl as [_ Hl].
    rewrite (proj2 (prefix_hash (String "#" t))) in Hl by eauto. discriminate.
  - intros l Hin Hn. apply filter_In. split; [assumption|].
    apply negb_true_iff. destruct (String.prefix "#" l) eqn:E1; [|reflexivity].
    apply prefix_hash in E1. destruct E1 as [t ->]. now destruct (Hn t).
Qed.

Lemma notes_strip_comments_witness :
  textLines
    (collectNotes (editedLines (exampleWorld userNotes noNames silent silent)
                     "/tmp/release-*") "") ""
  = ["First release."; ""; "Thanks."].
Proof.
  assert (Hrun : notes (exampleWorld userNotes noNames silent silent) zeroSemver
                   (mkPstate [] [])
                 = (Next ("/tmp/release-*",
                          collectNotes
                            (editedLines (exampleWorld userNotes noNames silent silent)
                               "/tmp/release-*") ""),
                    snd (notes (exampleWorld userNotes noNames silent silent) zeroSemver
                           (mkPstate [] []))))
    by (vm_compute; reflexivity).
  destruct (notes_strip_comments _ _ _ _ _ _ Hrun) as (H & _ & _).
  rewrite H. vm_compute. reflexivity.
Defined.

(** ** The blocks of [release] *)

Section Blocks.

Variable w : world.

Lemma git_failure a e st :
  run_err (captured w ("git" :: a)) = Some e ->
  git w a st = (Next ("", Some (errorsNew (firstLine (stderr (captured w ("git" :: a)))))),
                logged st (EvCaptured ("git" :: a))).
Proof.
  intros H. unfold git, bind, emit. cbn. now rewrite H.
Qed.

Lemma git_success a st :
  run_err (captured w ("git" :: a)) = None ->
  git w a st = (Next (stdout (captured w ("git" :: a)), None),
                logged st (EvCaptured ("git" :: a))).
Proof.
  intros H. unfold git, bind, emit. cbn. now rewrite H.
Qed.

Lemma previous_failure sem st e :
  run_err (captured w describeArgs) = Some e ->
  previous w sem st = (Next (sem, "HEAD"), logged st (EvCaptured describeArgs)).
Proof.
  intros H. unfold previous, bind. rewrite (git_failure _ e) by exact H.
  reflexivity.
Qed.

Lemma qualify_plain sem next prerelease st :
  qualify w sem next false prerelease st
  = (Next (set_prerelease (bump sem next) prerelease), st).
Proof. reflexivity. Qed.

Lemma qualify_build sem next prerelease st :
  run_err (captured w logArgs) = None ->
  qualify w sem next true prerelease st
  = (Next (set_build (set_prerelease (bump sem next) prerelease)
             (dropLast (stdout (captured w logArgs)))),
     logged st (EvCaptured logArgs)).
Proof.
  intros H. unfold qualify, bind. rewrite git_success by exact H. reflexivity.
Qed.

Lemma dropLast_snoc s c : dropLast (s ++ String c "") = s.
Proof.
  unfold dropLast.
  assert (E : String.length (s ++ String c "") = S (String.length s)).
  { induction s; simpl; congruence. }
  rewrite E. cbn [Nat.ltb Nat.leb]. rewrite Nat.sub_succ, Nat.sub_0_r.
  apply take_app.
Qed.

(** [notes] goes on or returns an error; it never returns success. *)
Lemma notes_leaves sem st o st' :
  notes w sem st = (Left o, st') -> exists err, o = Return sem (Some err).
Proof.
  unfold notes, bind, emit, defer, openInEditor, leave, ret. cbn.
  destruct (CreateTemp w "release-*") as [f|err]; [|intros H; inversion H; eauto].
  destruct (is_empty (Getenv w "EDITOR")).
  - intros H; inversion H; eauto.
  - cbn. destruct (terminal w _ _) as [p edited]. cbn.
    destruct (run_err p); [intros H; inversion H; eauto|].
    destruct (bufio.ScanLines edited) as [lines [err|]];
      intros H; inversion H; eauto.
Qed.

(** [publish] returns the version it was given; when it succeeds it has run
    [git shortlog] on the range and [git tag] on the rendered version. *)
Lemma publish_result f buf sem revrange st r st' :
  publish w f buf sem revrange st = (r, st') ->
  (exists err, r = Left (Return sem (Some err))) \/
  (r = Next sem /\
   In (EvCaptured ["git"; "shortlog"; revrange]) (trace st') /\
   exists message, In (EvTerminal (tagArgs (String_ sem) f) message) (trace st')).
Proof.
  unfold publish, bind, gitshortlog, gittag, git, emit, defer, leave, ret. cbn.
  destruct (CreateTemp w "release-changelog-*") as [c|err]; cbn;
    [|intros H; inversion H; eauto].
  destruct (run_err (captured w ["git"; "shortlog"; revrange])); cbn;
    [intros H; inversion H; eauto|].
  destruct (run_err (fst (terminal w _ _))); cbn; [intros H; inversion H; eauto|].
  destruct (run_err (captured w _)); cbn; intros H; inversion H; subst; [eauto|].
  right. split; [reflexivity|]. cbn. split.
  - rewrite !in_app_iff. cbn. tauto.
  - eexists. rewrite !in_app_iff. left. right. left. reflexivity.
Qed.

(** With a failed [git describe], [release] is the pipeline of a first
    release. *)
Lemma release_first next info prerelease e :
  run_err (captured w describeArgs) = Some e ->
  release w next info prerelease = runM (firstRelease w next info prerelease).
Proof.
  intros H. unfold release, runM, release_body, firstRelease, bind.
  destruct (notes w zeroSemver _) as [[[f buf]|o] st1]; [|reflexivity].
  rewrite (previous_failure _ _ e) by exact H. reflexivity.
Qed.

End Blocks.

(** ** Runs of [release], path by path *)

Ltac unfold_release :=
  unfold release, runM, release_body, notes, previous, qualify, publish,
    gitshortlog, gittag, git, openInEditor, bind, emit, defer, leave, panic, ret,
    describeArgs, logArgs, tagArgs in *.

Ltac split_path :=
  match goal with
  | |- context [match CreateTemp ?w ?p with _ => _ end] =>
      destruct (CreateTemp w p) eqn:?
  | |- context [if is_empty (Getenv ?w ?k) then _ else _] =>
      destruct (is_empty (Getenv w k)) eqn:?
  | |- context [let '(_, _) := terminal ?w ?a ?n in _] =>
      destruct (terminal w a n) eqn:?
  | |- context [match run_err ?p with _ => _ end] =>
      destruct (run_err p) eqn:?
  | |- context [let '(_, _) := bufio.ScanLines ?d in _] =>
      destruct (bufio.ScanLines d) as [? [?|]] eqn:?
  | |- context [match parseSemver ?s with _ => _ end] =>
      destruct (parseSemver s) as [? [?|]|?] eqn:?
  | |- context [if ?b then _ else _] =>
      match type of b with bool => is_var b; destruct b end
  end.

Ltac paths :=
  unfold_release;
  repeat (cbn [fst snd trace deferred cleanup flat_map app]; split_path);
  cbn [fst snd trace deferred cleanup flat_map app].

(** C4 (amended).  Every failure of [git describe], whatever its cause and
    whatever it printed, is swallowed: the version stays the zero version,
    the range is [HEAD], and [release] goes on as for a first release.  No
    failure of [git describe] is returned by [release]. *)
Theorem describe_failure_swallowed (w : world) (e : error) :
  run_err (captured w describeArgs) = Some e ->
  (forall sem st,
     previous w sem st = (Next (sem, "HEAD"), logged st (EvCaptured describeArgs))) /\
  (forall next info prerelease,
     release w next info prerelease = runM (firstRelease w next info prerelease)).
Proof.
  intros H. split.
  - intros sem st. now apply previous_failure with (e := e).
  - intros next info prerelease. now apply release_first with (e := e).
Qed.

Lemma describe_failure_swallowed_witness :
  release (exampleWorld "Notes" noAnnotated silent silent) version.minor false "rc1"
  = runM (firstRelease (exampleWorld "Notes" noAnnotated silent silent)
            version.minor false "rc1").
Proof.
  apply (describe_failure_swallowed (exampleWorld "Notes" noAnnotated silent silent)
           (ExitError "exit status 128")).
  reflexivity.
Defined.

(** C4 as stated fails: [git describe] fails because the tags are not
    annotated, which is not the absence of a tag, and [release] succeeds
    with the first version. *)
Lemma describe_other_failure_continues :
  fst (git (exampleWorld "Notes" noAnnotated silent silent)
         ["describe"; "--abbrev=0"] (mkPstate [] []))
  = Next ("", Some (errorsNew "fatal: No annotated tags can describe '1a2b3c4d5e6f'.")) /\
  fst (release (exampleWorld "Notes" noAnnotated silent silent) version.patch false "")
  = Return (mkSemver 0 0 1 "" "") None.
Proof. split; reflexivity. Qed.

(** C7.  When [git describe] fails, as it does without a previous tag, the
    previous version is the zero version and the range of the changelog is
    [HEAD]; a patch bump without prerelease and without build metadata then
    gives the version that renders as [v0.0.1], and a successful [release]
    has summarised [HEAD] and tagged [v0.0.1]. *)
Theorem first_release_default (w : world) :
  run_err (captured w describeArgs) <> None ->
  (forall st, previous w zeroSemver st
              = (Next (zeroSemver, "HEAD"), logged st (EvCaptured describeArgs))) /\
  (forall st, qualify w zeroSemver version.patch false "" st
              = (Next (mkSemver 0 0 1 "" ""), st)) /\
  String_ (mkSemver 0 0 1 "" "") = "v0.0.1" /\
  (forall sem tr,
     release w version.patch false "" = (Return sem None, tr) ->
     String_ sem = "v0.0.1" /\
     In (EvCaptured ["git"; "shortlog"; "HEAD"]) tr /\
     exists f message, In (EvTerminal (tagArgs "v0.0.1" f) message) tr).
Proof.
  intros H. destruct (run_err (captured w describeArgs)) as [e|] eqn:E; [clear H|congruence].
  split; [intros st; now apply previous_failure with (e := e)|].
  split; [reflexivity|]. split; [reflexivity|].
  intros sem tr. rewrite (release_first _ _ _ _ e) by exact E.
  unfold runM, firstRelease, bind.
  destruct (notes w zeroSemver _) as [[[f buf]|o] st1] eqn:EN.
  - cbn [emit fst snd]. rewrite qualify_plain.
    destruct (publish w f buf _ "HEAD" _) as [r st2] eqn:EP.
    destruct (publish_result _ _ _ _ _ _ _ _ EP) as [[err ->]|(-> & Hs & m & Ht)].
    + intros HR; inversion HR.
    + intros HR; inversion HR; subst. split; [reflexivity|].
      split; [apply in_or_app; now left|].
      exists f, m. apply in_or_app; now left.
  - destruct (notes_leaves _ _ _ _ _ EN) as [err ->]. intros HR; inversion HR.
Qed.

Lemma first_release_default_witness :
  String_ (mkSemver 0 0 1 "" "") = "v0.0.1" /\
  In (EvCaptured ["git"; "shortlog"; "HEAD"])
     (snd (release (exampleWorld "First release." noNames silent silent)
             version.patch false "")).
Proof.
  destruct (first_release_default (exampleWorld "First release." noNames silent silent))
    as (_ & _ & _ & H); [discriminate|].
  destruct (H (mkSemver 0 0 1 "" "")
              (snd (release (exampleWorld "First release." noNames silent silent)
                      version.patch false "")) eq_refl) as (Hs & Hl & _).
  split; assumption.
Defined.

(** On a text of whole lines, dropping the last byte is trimming the
    trailing newline. *)
Lemma dropLast_wholeLines out :
  wholeLines out -> dropLast out = strings.TrimSuffix out LF.
Proof.
  intros [->|[h ->]]; [reflexivity|].
  now rewrite dropLast_snoc, TrimSuffix_snoc.
Qed.

(** C9.  When build metadata is asked for, the build field is what
    [git log -n 1 --format=%h] printed, with its trailing newline trimmed
    and otherwise unchanged.  [git log] prints whole lines (with
    [--format] every entry is ended by a newline), so its output is a hash
    [h] and a newline, and the build is [h], which is what
    [strings.TrimSuffix] makes of it; when the run fails, [git] returns the
    empty text and the build is empty. *)
Theorem build_is_trimmed_hash (w : world) (sem : semver) (next : version.t)
  (label : string) (st : pstate) :
  (forall out,
     run_err (captured w logArgs) = None ->
     stdout (captured w logArgs) = out ->
     wholeLines out ->
     fst (qualify w sem next true label st)
     = Next (set_build (set_prerelease (bump sem next) label)
               (strings.TrimSuffix out LF)) /\
     (forall sem' tr, release w next true label = (Return sem' None, tr) ->
                      build sem' = strings.TrimSuffix out LF)) /\
  (forall h, strings.TrimSuffix (h ++ String LF "") LF = h) /\
  strings.TrimSuffix "" LF = "" /\
  (forall e,
     run_err (captured w logArgs) = Some e ->
     fst (qualify w sem next true label st)
     = Left (Return (set_build (set_prerelease (bump sem next) label) "")
               (Some (errorsNew (firstLine (stderr (captured w logArgs))))))).
Proof.
  split; [|split; [|split]].
  - intros out Hr Ho Hw. apply dropLast_wholeLines in Hw. split.
    + rewrite qualify_build by exact Hr. cbn [fst]. now rewrite Ho, Hw.
    + rewrite <- Hw. clear Hw. revert Hr Ho.
      paths; intros Hr Ho sem' tr H; try discriminate Hr;
        inversion H; subst; reflexivity.
  - intros h. apply TrimSuffix_snoc.
  - reflexivity.
  - intros e Hr. unfold qualify, bind.
    change (git w ["log"; "-n"; "1"; "--format=%h"] st) with (git w (tl logArgs) st).
    rewrite (git_failure w (tl logArgs) e st) by exact Hr. reflexivity.
Qed.

Lemma build_is_trimmed_hash_witness :
  fst (qualify (exampleWorld "Notes" noNames shortHash silent) zeroSemver
         version.patch true "" (mkPstate [] []))
  = Next (mkSemver 0 0 1 "" "1a2b3c4").
Proof.
  destruct (build_is_trimmed_hash (exampleWorld "Notes" noNames shortHash silent)
              zeroSemver version.patch "" (mkPstate [] [])) as [H _].
  destruct (H ("1a2b3c4" ++ String LF "") eq_refl eq_refl) as [Hq _].
  - right. exists "1a2b3c4". reflexivity.
  - rewrite Hq. reflexivity.
Defined.

(** C3 (amended).  When the run of [git] fails, [git] (which serves
    [describe], [log] and [archive]) and [gitshortlog] return an error
    whose message is the first line of what the tool wrote to its standard
    error, that is all of it up to the first newline.  [gittag] runs on the
    terminal's streams and returns the error of the run itself. *)
Theorem gateway_failures (w : world) (st : pstate) :
  (forall a e,
     run_err (captured w ("git" :: a)) = Some e ->
     fst (git w a st)
     = Next ("", Some (errorsNew (firstLine (stderr (captured w ("git" :: a))))))) /\
  (forall revrange f e,
     CreateTemp w "release-changelog-*" = inl f ->
     run_err (captured w ["git"; "shortlog"; revrange]) = Some e ->
     fst (gitshortlog w revrange st)
     = Next (inr (errorsNew
                    (firstLine (stderr (captured w ["git"; "shortlog"; revrange])))))) /\
  (forall tag tagfile message,
     fst (gittag w tag tagfile message st)
     = Next (run_err (fst (terminal w (tagArgs tag tagfile) message)))) /\
  (forall line rest,
     hasNoLF line = true ->
     firstLine (line ++ String LF rest) = line /\ firstLine line = line).
Proof.
  repeat split.
  - intros a e H. now rewrite (git_failure _ _ e).
  - intros revrange f e Hf H. unfold gitshortlog, bind, emit, ret. cbn.
    rewrite Hf. cbn. now rewrite H.
  - now apply firstLine_cut.
  - now apply firstLine_whole.
Qed.

Lemma gateway_failures_witness :
  fst (git (exampleWorld "Notes" noNames silent silent) ["describe"; "--abbrev=0"]
         (mkPstate [] []))
  = Next ("", Some (errorsNew "fatal: No names found, cannot describe anything.")).
Proof.
  destruct (gateway_failures (exampleWorld "Notes" noNames silent silent) (mkPstate [] []))
    as (H & _ & _ & Hl).
  rewrite (H ["describe"; "--abbrev=0"] (ExitError "exit status 128") eq_refl).
  reflexivity.
Defined.

(** C3 as stated fails for the annotated tag: the error is the exit status,
    not the first line of the diagnostic. *)
Lemma gittag_returns_exit_status :
  firstLine (stderr tagExists) = "fatal: tag 'v0.0.1' already exists" /\
  fst (gittag (exampleWorld "Notes" noNames silent tagExists)
         "v0.0.1" "/tmp/release-*" "Notes" (mkPstate [] []))
  = Next (Some (ExitError "exit status 128")) /\
  fst (release (exampleWorld "Notes" noNames silent tagExists) version.patch false "")
  = Return (mkSemver 0 0 1 "" "") (Some (ExitError "exit status 128")).
Proof. repeat split. Qed.

(** * Further properties *)

(** ** The third part, byte by byte *)

Lemma rangeFrom_cons c t i :
  utf8.rangeFrom (String c t) i 0 =
  (i, fst (utf8.DecodeRuneInString (String c t)))
    :: utf8.rangeFrom t (S i) (Nat.pred (snd (utf8.DecodeRuneInString (String c t)))).
Proof.
  cbn [utf8.rangeFrom]. destruct (utf8.DecodeRuneInString (String c t)). reflexivity.
Qed.

Lemma firstNonDigit_prefix c t : forall i,
  all_bytes strconv.is_digit c = true -> startsWithDigit t = false ->
  firstNonDigit (utf8.rangeFrom (c ++ t) i 0) =
  if is_empty t then None else Some (i + String.length c)%nat.
Proof.
  induction c as [|d c IH]; intros i Hd Ht.
  - cbn [append String.length]. destruct t as [|e t]; [reflexivity|].
    cbn [startsWithDigit] in Ht. rewrite rangeFrom_cons. cbn [firstNonDigit is_empty].
    destruct (is_digit_rune _) eqn:E.
    + apply decode_digit in E. destruct E as [_ E]. congruence.
    + cbn [negb]. f_equal. lia.
  - cbn [all_bytes] in Hd. apply andb_true_iff in Hd. destruct Hd as [Hc Hd].
    pose proof Hc as Hv. apply is_digit_val in Hv.
    cbn [append String.length]. rewrite rangeFrom_ascii by lia.
    cbn [firstNonDigit].
    replace (is_digit_rune (byte_val d)) with (strconv.is_digit d) by reflexivity.
    rewrite Hc. cbn [negb]. rewrite IH by assumption.
    destruct (is_empty t); [reflexivity|]. f_equal. lia.
Qed.

(** The inner loop cuts the third part after its leading digits, whatever
    bytes follow. *)
Lemma splitTail_prefix c t :
  all_bytes strconv.is_digit c = true -> startsWithDigit t = false ->
  splitTail (c ++ t) = (c, t).
Proof.
  intros Hd Ht. unfold splitTail, utf8.range.
  rewrite firstNonDigit_prefix by assumption.
  destruct t as [|e t]; cbn [is_empty].
  - now rewrite append_nil_r.
  - cbn [Nat.add]. now rewrite take_app, drop_app.
Qed.

Lemma digit_span s :
  s = digitPrefix s ++ afterDigits s /\
  all_bytes strconv.is_digit (digitPrefix s) = true /\
  startsWithDigit (afterDigits s) = false.
Proof.
  induction s as [|c t (IH1 & IH2 & IH3)]; [repeat split|].
  cbn [digitPrefix afterDigits]. destruct (strconv.is_digit c) eqn:E.
  - cbn [append all_bytes]. rewrite E, IH2. repeat split; [congruence|assumption].
  - cbn [append all_bytes startsWithDigit]. repeat split. assumption.
Qed.

Lemma splitTail_cut part : splitTail part = (digitPrefix part, afterDigits part).
Proof.
  destruct (digit_span part) as (E & Hd & Ht).
  rewrite E at 1. now apply splitTail_prefix.
Qed.

(** X1.  The loop over the runes of the third part cuts it at its first
    byte that is not a decimal digit, whatever the bytes are (valid UTF-8
    or not): the part is its leading digits, the tail is the rest. *)
Theorem splitTail_bytes (part : string) :
  splitTail part = (digitPrefix part, afterDigits part) /\
  part = digitPrefix part ++ afterDigits part /\
  all_bytes strconv.is_digit (digitPrefix part) = true /\
  startsWithDigit (afterDigits part) = false.
Proof.
  split; [apply splitTail_cut|apply digit_span].
Qed.

Lemma String_form sem :
  String_ sem =
  String "v" (strconv.FormatInt (major sem) ++ String "." (strconv.FormatInt (minor sem)
    ++ String "." (strconv.FormatInt (patch sem) ++ qualifierText sem))).
Proof.
  unfold String_, qualifierText.
  destruct (is_empty (prerelease sem)), (is_empty (build sem));
    repeat (progress cbn [append] || rewrite append_assoc || rewrite append_nil_r);
    reflexivity.
Qed.

Lemma fmtBits_all_digits f : forall u acc,
  0 <= u -> all_bytes strconv.is_digit acc = true ->
  all_bytes strconv.is_digit (strconv.fmtBits f u acc) = true.
Proof.
  induction f as [|f IH]; intros u acc Hu Hacc; [exact Hacc|].
  cbn [strconv.fmtBits]. destruct (u <? 10) eqn:E.
  - apply Z.ltb_lt in E. destruct (digit_byte u ltac:(lia)) as [Hd _].
    cbn [all_bytes]. now rewrite Hd.
  - destruct (digit_byte (u mod 10) ltac:(mod_lia)) as [Hd _].
    apply IH; [mod_lia|]. cbn [all_bytes]. now rewrite Hd.
Qed.

Lemma FormatInt_nonneg_digits i :
  0 <= i -> all_bytes strconv.is_digit (strconv.FormatInt i) = true.
Proof.
  intros H. unfold strconv.FormatInt.
  destruct (i <? 0) eqn:E; [apply Z.ltb_lt in E; lia|].
  now apply fmtBits_all_digits.
Qed.

Lemma FormatInt_no_dot i :
  all_bytes (fun c => negb (Ascii.eqb c ".")) (strconv.FormatInt i) = true.
Proof.
  unfold strconv.FormatInt. destruct (i <? 0) eqn:E.
  - apply Z.ltb_lt in E. cbn [all_bytes]. apply andb_true_iff. split; [reflexivity|].
    apply digits_no_dot. apply fmtBits_all_digits; [lia|reflexivity].
  - apply Z.ltb_ge in E. apply digits_no_dot.
    apply fmtBits_all_digits; [lia|reflexivity].
Qed.

Lemma SplitN_dots a b rest :
  all_bytes (fun c => negb (Ascii.eqb c ".")) a = true ->
  all_bytes (fun c => negb (Ascii.eqb c ".")) b = true ->
  strings.SplitN (a ++ String "." (b ++ String "." rest)) "." 3 = [a; b; rest].
Proof.
  intros Ha Hb. unfold strings.SplitN. cbn [strings.genSplit].
  now rewrite !Cut_app by assumption.
Qed.

Lemma qualifierText_head sem :
  startsWithDigit (qualifierText sem) = false /\
  match qualifierText sem with
  | EmptyString => True
  | String t0 _ => (negb (Ascii.eqb t0 "-") && negb (Ascii.eqb t0 "+"))%bool = false
  end.
Proof.
  unfold qualifierText.
  destruct (is_empty (prerelease sem)), (is_empty (build sem)); split; reflexivity.
Qed.

(** X2.  The rendering of a version whose [major] and [minor] are in the
    range of [int] and whose [patch] is not negative is accepted by
    [parseSemver], with the same three numbers, whatever the qualifiers
    are: the tag [release] creates can be read by the next [release]. *)
Theorem String_parses (sem : semver) :
  intRange (major sem) -> intRange (minor sem) -> 0 <= patch sem <= maxInt64 ->
  exists sem',
    parseSemver (String_ sem) = Return sem' None /\
    major sem' = major sem /\ minor sem' = minor sem /\ patch sem' = patch sem.
Proof.
  intros HM Hm HP. rewrite String_form. unfold parseSemver.
  rewrite Ascii.eqb_refl.
  rewrite SplitN_dots by apply FormatInt_no_dot.
  cbn [parseParts Nat.eqb].
  rewrite !ParseInt_FormatInt by assumption.
  destruct (qualifierText_head sem) as [Hd Hs].
  rewrite splitTail_prefix by (auto; apply FormatInt_nonneg_digits; lia).
  rewrite ParseInt_FormatInt by (unfold intRange, minInt64 in *; unfold_consts; lia).
  destruct (qualifierText sem) as [|t0 tl] eqn:ET.
  - eexists. split; [reflexivity|]. cbn. auto.
  - rewrite Hs. pose proof (scanTail_sep t0 tl Hs) as Hn.
    destruct (scanTail _ _ _ _) as [[pb bb]|]; [|congruence].
    eexists. split; [reflexivity|]. cbn. auto.
Qed.

Lemma String_parses_witness :
  exists sem',
    parseSemver (String_ (mkSemver (-1) 20 3 "rc-1" "a+b")) = Return sem' None /\
    major sem' = -1 /\ minor sem' = 20 /\ patch sem' = 3.
Proof.
  apply (String_parses (mkSemver (-1) 20 3 "rc-1" "a+b"));
    unfold intRange, minInt64, maxInt64; cbn; lia.
Defined.

(** ** utf8: encoding and decoding are inverse *)

Lemma lor_disjoint m k x :
  0 <= k -> 0 <= x < 2 ^ k -> Z.lor (m * 2 ^ k) x = m * 2 ^ k + x.
Proof.
  intros Hk Hx.
  assert (H0 : Z.land (m * 2 ^ k) x = 0).
  { apply Z.bits_inj'. intros n Hn. rewrite Z.land_spec, Z.bits_0.
    destruct (Z.lt_ge_cases n k) as [Hlt|Hge].
    - rewrite Z.mul_pow2_bits_low by lia. reflexivity.
    - rewrite <- (Z.mod_small x (2 ^ k)) by lia.
      rewrite Z.mod_pow2_bits_high by lia. apply andb_false_r. }
  rewrite <- Z.lxor_lor by assumption. symmetry. now apply Z.add_nocarry_lxor.
Qed.

Lemma byte_val_of z : 0 <= z < 256 -> byte_val (byte_of z) = z.
Proof.
  intros H. unfold byte_of, byte_val. rewrite N_ascii_embedding by lia. lia.
Qed.

Lemma land63 z : Z.land z 63 = z mod 64.
Proof. change 63 with (2 ^ 6 - 1). now rewrite land_mask by lia. Qed.

Lemma tx_val z : byte_val (utf8.tx z) = 128 + z mod 64.
Proof.
  unfold utf8.tx. rewrite land63. change 128 with (2 * 2 ^ 6).
  rewrite lor_disjoint by (try lia; apply Z.mod_pos_bound; lia).
  apply byte_val_of. change (2 ^ 6) with 64. mod_lia.
Qed.

Lemma cont_val b : utf8.cont b = b mod 64.
Proof. apply land63. Qed.

Lemma lead_val (m k x : Z) :
  0 <= k -> 0 <= x < 2 ^ k -> 0 <= m * 2 ^ k + x < 256 ->
  byte_val (byte_of (Z.lor (m * 2 ^ k) x)) = m * 2 ^ k + x.
Proof.
  intros Hk Hx Hr. rewrite lor_disjoint by assumption. now apply byte_val_of.
Qed.

Ltac bools :=
  unfold utf8.between in *;
  repeat match goal with
  | H : _ && _ = true |- _ => apply andb_true_iff in H; destruct H
  | H : _ && _ = false |- _ => apply andb_false_iff in H; destruct H
  | H : _ || _ = true |- _ => apply orb_true_iff in H; destruct H
  | H : _ || _ = false |- _ => apply orb_false_iff in H; destruct H
  | H : (_ <=? _) = true |- _ => apply Z.leb_le in H
  | H : (_ <=? _) = false |- _ => apply Z.leb_gt in H
  | H : (_ <? _) = true |- _ => apply Z.ltb_lt in H
  | H : (_ <? _) = false |- _ => apply Z.ltb_ge in H
  | H : (_ =? _) = true |- _ => apply Z.eqb_eq in H
  | H : (_ =? _) = false |- _ => apply Z.eqb_neq in H
  end.

Ltac branch :=
  match goal with
  | |- context [if ?b then _ else _] =>
      let E := fresh "E" in destruct b eqn:E; bools; try (exfalso; mod_lia)
  end.

(** The value of the bit patterns the decoder builds. *)
Lemma pack2 a b : 0 <= b < 64 -> Z.lor (Z.shiftl a 6) b = a * 64 + b.
Proof.
  intros H. rewrite Z.shiftl_mul_pow2 by lia. now apply lor_disjoint.
Qed.

Lemma pack3 a b c :
  0 <= b < 64 -> 0 <= c < 64 ->
  Z.lor (Z.shiftl a 12) (Z.lor (Z.shiftl b 6) c) = a * 4096 + b * 64 + c.
Proof.
  intros Hb Hc. rewrite pack2 by assumption.
  rewrite Z.shiftl_mul_pow2 by lia. rewrite lor_disjoint by (change (2 ^ 12) with 4096; lia).
  change (2 ^ 12) with 4096. lia.
Qed.

Lemma pack4 a b c d :
  0 <= b < 64 -> 0 <= c < 64 -> 0 <= d < 64 ->
  Z.lor (Z.shiftl a 18) (Z.lor (Z.shiftl b 12) (Z.lor (Z.shiftl c 6) d))
  = a * 262144 + b * 4096 + c * 64 + d.
Proof.
  intros Hb Hc Hd. rewrite pack3 by assumption.
  rewrite Z.shiftl_mul_pow2 by lia.
  rewrite lor_disjoint by (change (2 ^ 18) with 262144; lia).
  change (2 ^ 18) with 262144. lia.
Qed.

Lemma land_low b k : 0 <= k -> Z.land b (2 ^ k - 1) = b mod 2 ^ k.
Proof. apply land_mask. Qed.

Ltac valid_rune :=
  unfold utf8.ValidRune, utf8.between; apply orb_true_iff;
  first [ exfalso; lia
        | left; apply andb_true_iff; split; apply Z.leb_le; mod_lia
        | right; apply andb_true_iff; split; apply Z.leb_le; mod_lia ].

(** Every rune the decoder yields is a valid code point. *)
Lemma decode_valid c t :
  utf8.ValidRune (fst (utf8.DecodeRuneInString (String c t))) = true.
Proof.
  pose proof (byte_val_range c) as Hc.
  unfold utf8.DecodeRuneInString.
  destruct (byte_val c <? 128) eqn:E0.
  { bools. cbn [fst]. valid_rune. }
  destruct (utf8.between 194 223 (byte_val c)) eqn:E2.
  { destruct t as [|c1 t]; [reflexivity|].
    destruct (utf8.between 128 191 (byte_val c1)) eqn:E3; [|reflexivity].
    cbn [fst]. rewrite cont_val.
    rewrite pack2 by (apply Z.mod_pos_bound; lia).
    change 31 with (2 ^ 5 - 1). rewrite land_low by lia. change (2 ^ 5) with 32.
    bools. valid_rune. }
  destruct (utf8.between 224 239 (byte_val c)) eqn:E3.
  { destruct t as [|c1 [|c2 t]]; try reflexivity.
    unfold utf8.second_range.
    destruct (byte_val c =? 224) eqn:A; [|destruct (byte_val c =? 237) eqn:B;
      [|destruct (byte_val c =? 240) eqn:C; [|destruct (byte_val c =? 244) eqn:D]]];
      (destruct (utf8.between _ _ (byte_val c1) && _) eqn:EB; [|reflexivity]);
      cbn [fst]; rewrite !cont_val;
      rewrite pack3 by (apply Z.mod_pos_bound; lia);
      change 15 with (2 ^ 4 - 1); rewrite land_low by lia; change (2 ^ 4) with 16;
      bools; destruct (Z_lt_le_dec (byte_val c) 237); valid_rune. }
  destruct (utf8.between 240 244 (byte_val c)) eqn:E4; [|reflexivity].
  destruct t as [|c1 [|c2 [|c3 t]]]; try reflexivity.
  unfold utf8.second_range.
  destruct (byte_val c =? 224) eqn:A; [|destruct (byte_val c =? 237) eqn:B;
    [|destruct (byte_val c =? 240) eqn:C; [|destruct (byte_val c =? 244) eqn:D]]];
    (destruct (utf8.between _ _ (byte_val c1) && _ && _) eqn:EB; [|reflexivity]);
    cbn [fst]; rewrite !cont_val;
    rewrite pack4 by (apply Z.mod_pos_bound; lia);
    change 7 with (2 ^ 3 - 1); rewrite land_low by lia; change (2 ^ 3) with 8;
    bools; valid_rune.
Qed.

Lemma ValidRune_spec r :
  utf8.ValidRune r = true <-> 0 <= r <= 55295 \/ 57344 <= r <= 1114111.
Proof.
  unfold utf8.ValidRune, utf8.between.
  rewrite orb_true_iff, !andb_true_iff, !Z.leb_le. tauto.
Qed.

Lemma shiftr_div r k : 0 <= k -> Z.shiftr r k = r / 2 ^ k.
Proof. intros. now apply Z.shiftr_div_pow2. Qed.

(** Decoding what [EncodeRune] wrote gives the rune back, and its width. *)
Lemma decode_encode r rest :
  utf8.ValidRune r = true ->
  utf8.DecodeRuneInString (utf8.EncodeRune r ++ rest)
  = (r, String.length (utf8.EncodeRune r)).
Proof.
  intros Hv. unfold utf8.EncodeRune. rewrite Hv. apply ValidRune_spec in Hv.
  destruct (r <? 128) eqn:E1; bools.
  { cbn [append String.length]. rewrite decode_ascii; rewrite byte_val_of; auto; lia. }
  destruct (r <? 2048) eqn:E2; bools.
  { assert (H0 : byte_val (byte_of (Z.lor 192 (Z.shiftr r 6))) = 192 + r / 64).
    { rewrite shiftr_div by lia. change 192 with (3 * 2 ^ 6).
      change (2 ^ 6) with 64. change 64 with (2 ^ 6) at 1.
      apply lead_val; change (2 ^ 6) with 64; mod_lia. }
    pose proof (tx_val r) as H1.
    set (c0 := byte_of _) in *. set (c1 := utf8.tx _) in *. clearbody c0 c1.
    cbn [append String.length]. unfold utf8.DecodeRuneInString. rewrite H0, H1.
    repeat branch. rewrite cont_val, pack2 by (apply Z.mod_pos_bound; lia).
    change 31 with (2 ^ 5 - 1). rewrite land_low by lia. change (2 ^ 5) with 32.
    f_equal. mod_lia. }
  destruct (r <? 65536) eqn:E3; bools.
  { assert (H0 : byte_val (byte_of (Z.lor 224 (Z.shiftr r 12))) = 224 + r / 4096).
    { rewrite shiftr_div by lia. change 224 with (14 * 2 ^ 4).
      change (2 ^ 12) with 4096.
      apply lead_val; change (2 ^ 4) with 16; mod_lia. }
    assert (H1 : byte_val (utf8.tx (Z.shiftr r 6)) = 128 + (r / 64) mod 64)
      by (rewrite tx_val, shiftr_div by lia; reflexivity).
    pose proof (tx_val r) as H2.
    set (c0 := byte_of _) in *. set (c1 := utf8.tx (Z.shiftr r 6)) in *.
    set (c2 := utf8.tx r) in *. clearbody c0 c1 c2.
    cbn [append String.length]. unfold utf8.DecodeRuneInString, utf8.second_range.
    rewrite H0, H1, H2.
    repeat branch; rewrite !cont_val, pack3 by (apply Z.mod_pos_bound; lia);
      change 15 with (2 ^ 4 - 1); rewrite land_low by lia; change (2 ^ 4) with 16;
      f_equal; mod_lia. }
  assert (H0 : byte_val (byte_of (Z.lor 240 (Z.shiftr r 18))) = 240 + r / 262144).
  { rewrite shiftr_div by lia. change 240 with (30 * 2 ^ 3).
    change (2 ^ 18) with 262144.
    apply lead_val; change (2 ^ 3) with 8; mod_lia. }
  assert (H1 : byte_val (utf8.tx (Z.shiftr r 12)) = 128 + (r / 4096) mod 64)
    by (rewrite tx_val, shiftr_div by lia; reflexivity).
  assert (H2 : byte_val (utf8.tx (Z.shiftr r 6)) = 128 + (r / 64) mod 64)
    by (rewrite tx_val, shiftr_div by lia; reflexivity).
  pose proof (tx_val r) as H3.
  set (c0 := byte_of _) in *. set (c1 := utf8.tx (Z.shiftr r 12)) in *.
  set (c2 := utf8.tx (Z.shiftr r 6)) in *. set (c3 := utf8.tx r) in *.
  clearbody c0 c1 c2 c3.
  cbn [append String.length]. unfold utf8.DecodeRuneInString, utf8.second_range.
  rewrite H0, H1, H2, H3.
  repeat branch; rewrite !cont_val, pack4 by (apply Z.mod_pos_bound; lia);
    change 7 with (2 ^ 3 - 1); rewrite land_low by lia; change (2 ^ 3) with 8;
    f_equal; mod_lia.
Qed.

(** ** Qualifiers, rune by rune *)

Lemma rangeFrom_skip a rest : forall i,
  utf8.rangeFrom (a ++ rest) i (String.length a)
  = utf8.rangeFrom rest (i + String.length a) 0.
Proof.
  induction a as [|c a IH]; intros i; cbn [append String.length].
  - now rewrite Nat.add_0_r.
  - cbn [utf8.rangeFrom]. rewrite IH. f_equal. lia.
Qed.

Lemma EncodeRune_cons r : exists c a, utf8.EncodeRune r = String c a.
Proof.
  unfold utf8.EncodeRune.
  destruct (_ <? 128); [eauto|]. destruct (_ <? 2048); [eauto|].
  destruct (_ <? 65536); eauto.
Qed.

Lemma rangeFrom_encoded r rest i :
  utf8.ValidRune r = true ->
  utf8.rangeFrom (utf8.EncodeRune r ++ rest) i 0
  = (i, r) :: utf8.rangeFrom rest (i + String.length (utf8.EncodeRune r)) 0.
Proof.
  intros Hv. pose proof (decode_encode r rest Hv) as HD.
  destruct (EncodeRune_cons r) as (c & a & E). rewrite E in *.
  cbn [append] in *. rewrite rangeFrom_cons, HD. cbn [fst snd String.length Nat.pred].
  rewrite rangeFrom_skip. f_equal. f_equal. lia.
Qed.

Lemma range_valid s : forall i k,
  Forall (fun r => utf8.ValidRune r = true) (map snd (utf8.rangeFrom s i k)).
Proof.
  induction s as [|c t IH]; intros i k; [constructor|].
  destruct k as [|k]; [|apply IH].
  rewrite rangeFrom_cons. cbn [map snd]. constructor; [apply decode_valid|apply IH].
Qed.

(** What the tail loop stores are stored runes. *)
Lemma scanTail_stores rs : forall buf pb bb pb' bb',
  Forall (fun r => utf8.ValidRune r = true) rs ->
  Forall storedRune pb -> Forall storedRune bb ->
  scanTail rs buf pb bb = Some (pb', bb') ->
  Forall storedRune pb' /\ Forall storedRune bb'.
Proof.
  induction rs as [|r rs IH]; intros buf pb bb pb' bb' Hv Hp Hb H.
  - inversion H; subst. auto.
  - inversion Hv as [|? ? Hr Hrs]; subst. cbn [scanTail] in H.
    destruct (r =? 45) eqn:E1; [exact (IH _ _ _ _ _ Hrs Hp Hb H)|].
    destruct (r =? 43) eqn:E2; [exact (IH _ _ _ _ _ Hrs Hp Hb H)|].
    apply Z.eqb_neq in E1, E2.
    assert (Hs : storedRune r) by (repeat split; assumption).
    destruct buf; [discriminate| |].
    + refine (IH _ _ _ _ _ Hrs _ Hb H). apply Forall_app; split; auto.
    + refine (IH _ _ _ _ _ Hrs Hp _ H). apply Forall_app; split; auto.
Qed.

Lemma scanTail_stored rs more : forall buf pb bb,
  Forall storedRune rs -> buf <> bufNil ->
  scanTail (rs ++ more)%list buf pb bb =
  scanTail more buf
    (if match buf with bufPre => true | _ => false end then pb ++ rs else pb)%list
    (if match buf with bufBuild => true | _ => false end then bb ++ rs else bb)%list.
Proof.
  induction rs as [|r rs IH]; intros buf pb bb Hs Hb.
  - cbn [app]. rewrite !app_nil_r. destruct buf; reflexivity.
  - inversion Hs as [|? ? (Hv & H45 & H43) Hrs]; subst.
    cbn [app scanTail].
    apply Z.eqb_neq in H45, H43. rewrite H45, H43.
    destruct buf; [congruence| |]; rewrite IH by (auto; discriminate);
      cbn [app]; rewrite <- ?app_assoc; reflexivity.
Qed.

Lemma range_encoded rs rest : forall i,
  Forall storedRune rs ->
  exists j,
    map snd (utf8.rangeFrom (utf8.string_of_runes rs ++ rest) i 0)
    = (rs ++ map snd (utf8.rangeFrom rest j 0))%list.
Proof.
  induction rs as [|r rs IH]; intros i Hs.
  - exists i. reflexivity.
  - inversion Hs as [|? ? (Hv & _) Hrs]; subst.
    cbn [utf8.string_of_runes]. rewrite append_assoc.
    rewrite rangeFrom_encoded by assumption. cbn [map snd app].
    destruct (IH (i + String.length (utf8.EncodeRune r))%nat Hrs) as [j Hj].
    exists j. now rewrite Hj.
Qed.

Lemma string_of_runes_empty rs :
  is_empty (utf8.string_of_runes rs) = match rs with [] => true | _ => false end.
Proof.
  destruct rs as [|r rs]; [reflexivity|]. cbn [utf8.string_of_runes].
  destruct (EncodeRune_cons r) as (c & a & ->). reflexivity.
Qed.

(** The tail loop reads the qualifier text of [String] back. *)
Lemma scanTail_qualifierText sem pb bb :
  prerelease sem = utf8.string_of_runes pb -> build sem = utf8.string_of_runes bb ->
  Forall storedRune pb -> Forall storedRune bb ->
  match qualifierText sem with
  | EmptyString => pb = [] /\ bb = []
  | String _ _ as tail =>
      scanTail (map snd (utf8.range tail)) bufNil [] [] = Some (pb, bb)
  end.
Proof.
  intros Ep Eb Hp Hb. unfold qualifierText, utf8.range. rewrite Ep, Eb.
  rewrite !string_of_runes_empty.
  assert (Hend : forall i buf a b, scanTail (map snd (utf8.rangeFrom "" i 0)) buf a b
                                   = Some (a, b)) by reflexivity.
  destruct pb as [|p pb], bb as [|b bb]; cbn [append]; auto.
  - rewrite rangeFrom_ascii by (vm_compute; reflexivity).
    cbn [map snd scanTail]. change (byte_val "+" =? 45) with false.
    change (byte_val "+" =? 43) with true. cbv iota.
    rewrite <- (append_nil_r (utf8.string_of_runes (b :: bb))).
    destruct (range_encoded (b :: bb) "" 1 Hb) as [j ->].
    rewrite scanTail_stored by (auto; discriminate). now rewrite Hend.
  - rewrite append_nil_r.
    rewrite rangeFrom_ascii by (vm_compute; reflexivity).
    cbn [map snd scanTail]. change (byte_val "-" =? 45) with true. cbv iota.
    rewrite <- (append_nil_r (utf8.string_of_runes (p :: pb))).
    destruct (range_encoded (p :: pb) "" 1 Hp) as [j ->].
    rewrite scanTail_stored by (auto; discriminate). now rewrite Hend.
  - rewrite rangeFrom_ascii by (vm_compute; reflexivity).
    cbn [map snd scanTail]. change (byte_val "-" =? 45) with true. cbv iota.
    destruct (range_encoded (p :: pb) (String "+" (utf8.string_of_runes (b :: bb))) 1 Hp)
      as [j Hj].
    change ("+" ++ utf8.string_of_runes (b :: bb))
      with (String "+" (utf8.string_of_runes (b :: bb))).
    rewrite Hj.
    rewrite scanTail_stored by (auto; discriminate).
    rewrite rangeFrom_ascii by (vm_compute; reflexivity).
    cbn [map snd scanTail]. change (byte_val "+" =? 45) with false.
    change (byte_val "+" =? 43) with true. cbv iota.
    rewrite <- (append_nil_r (utf8.string_of_runes (b :: bb))).
    destruct (range_encoded (b :: bb) "" (S j) Hb) as [j' ->].
    rewrite scanTail_stored by (auto; discriminate). now rewrite Hend.
Qed.

Lemma String_parse_exact (sem : semver) :
  parsedForm sem -> parseSemver (String_ sem) = Return sem None.
Proof.
  intros (HM & Hm & HP & pb & bb & Ep & Eb & Hpb & Hbb).
  rewrite String_form. unfold parseSemver.
  rewrite Ascii.eqb_refl.
  rewrite SplitN_dots by apply FormatInt_no_dot.
  cbn [parseParts Nat.eqb].
  rewrite !ParseInt_FormatInt by assumption.
  destruct (qualifierText_head sem) as [Hd Hs].
  rewrite splitTail_prefix by (auto; apply FormatInt_nonneg_digits; lia).
  rewrite ParseInt_FormatInt by (unfold intRange, minInt64 in *; unfold_consts; lia).
  pose proof (scanTail_qualifierText sem pb bb Ep Eb Hpb Hbb) as HT.
  destruct (qualifierText sem) as [|t0 tl] eqn:ET.
  - destruct HT as [-> ->]. destruct sem; cbn in *; subst. reflexivity.
  - rewrite Hs, HT. destruct sem; cbn in *; subst. reflexivity.
Qed.

Lemma parseParts_segments s sem0 tail :
  s <> "" ->
  parseParts 0 (segments s) zeroSemver "" = inr (sem0, tail) ->
  intRange (major sem0) /\ intRange (minor sem0) /\ 0 <= patch sem0 <= maxInt64 /\
  prerelease sem0 = "" /\ build sem0 = "".
Proof.
  intros Hs HP. unfold intRange.
  assert (Hz : minInt64 <= 0 <= maxInt64) by (unfold_consts; lia).
  destruct (segments_shape s Hs) as [(a & E)|[(a & b & E)|(a & b & c & E)]];
    rewrite E in *; cbn in HP;
    destruct (strconv.ParseInt a) as [n [e|]] eqn:Ea; try discriminate;
    destruct (ParseInt_ok _ _ Ea) as [Ra _].
  - inversion HP; subst; cbn; unfold_consts; repeat split; lia.
  - destruct (strconv.ParseInt b) as [m [e|]] eqn:Eb; try discriminate.
    destruct (ParseInt_ok _ _ Eb) as [Rb _].
    inversion HP; subst; cbn; unfold_consts; repeat split; lia.
  - destruct (strconv.ParseInt b) as [m [e|]] eqn:Eb; try discriminate.
    destruct (ParseInt_ok _ _ Eb) as [Rb _].
    destruct (splitTail c) as [p t] eqn:Es.
    destruct (strconv.ParseInt p) as [k [e|]] eqn:Ep; try discriminate.
    assert (Hk : 0 <= k <= maxInt64).
    { apply (splitTail_nonneg c). rewrite Es. exact Ep. }
    inversion HP; subst; cbn; unfold_consts; repeat split; lia.
Qed.

(** Every version [parseSemver] returns without error has the parsed form. *)
Lemma parseSemver_parsedForm s sem :
  parseSemver s = Return sem None -> parsedForm sem.
Proof.
  intros H. assert (Hs : s <> "") by (intros ->; discriminate).
  unfold parseSemver in H. destruct s as [|c0 s1]; [discriminate|].
  change (strings.SplitN (if Ascii.eqb c0 "v" then s1 else String c0 s1) "." 3)
    with (segments (String c0 s1)) in H.
  destruct (parseParts _ _ _ _) as [[sem0 e]|[sem0 tail]] eqn:HP; [discriminate|].
  destruct (parseParts_segments _ _ _ Hs HP) as (HM & Hm & Hp & Epre & Ebuild).
  destruct tail as [|t0 tl].
  - inversion H; subst. refine (conj HM (conj Hm (conj Hp _))).
    exists [], []. rewrite Epre, Ebuild. repeat split; constructor.
  - destruct (negb (Ascii.eqb t0 "-") && negb (Ascii.eqb t0 "+"))%bool; [discriminate|].
    destruct (scanTail _ _ _ _) as [[pb bb]|] eqn:ES; [|discriminate].
    inversion H; subst. refine (conj HM (conj Hm (conj Hp _))).
    exists pb, bb.
    destruct (scanTail_stores _ _ _ _ _ _ (range_valid _ 0%nat 0%nat)
                (Forall_nil _) (Forall_nil _) ES) as [Hpb Hbb].
    repeat split; assumption.
Qed.

(** X3.  Rendering is lossless on what parsing accepts: a version that
    [parseSemver] returns for some input is returned again, field for
    field, for its own rendering. *)
Theorem parse_String_parse (s : string) (sem : semver) :
  parseSemver s = Return sem None -> parseSemver (String_ sem) = Return sem None.
Proof.
  intros H. apply String_parse_exact. now apply parseSemver_parsedForm with (s := s).
Qed.

Lemma parse_String_parse_witness :
  parseSemver (String_ (mkSemver 1 2 3 "alpha1" "b")) = Return (mkSemver 1 2 3 "alpha1" "b") None.
Proof.
  apply (parse_String_parse "1.2.3+b-alpha-1"). reflexivity.
Defined.

(** The normal form of a version text: rendering a parsed version gives a
    text that renders to itself. *)
Corollary roundTrip_idempotent (s t : string) :
  roundTrip s = Some t -> roundTrip t = Some t.
Proof.
  unfold roundTrip. destruct (parseSemver s) as [sem [e|]|] eqn:E; try discriminate.
  intros H; inversion H; subst.
  now rewrite (String_parse_exact sem (parseSemver_parsedForm s sem E)).
Qed.

(** ** Qualifiers, byte by byte *)

Lemma high_noSeparator c : 128 <= byte_val c -> noSeparator c = true.
Proof.
  intros H. unfold noSeparator. apply andb_true_iff.
  split; apply negb_true_iff, Ascii.eqb_neq; intros ->; vm_compute in H; congruence.
Qed.

Lemma EncodeRune_noSeparator r :
  storedRune r -> all_bytes noSeparator (utf8.EncodeRune r) = true.
Proof.
  intros (Hv & H45 & H43). unfold utf8.EncodeRune. rewrite Hv.
  apply ValidRune_spec in Hv.
  destruct (r <? 128) eqn:E1; bools.
  { cbn [all_bytes]. rewrite andb_true_r. unfold noSeparator.
    apply andb_true_iff. split; apply negb_true_iff, Ascii.eqb_neq; intros E;
      apply (f_equal byte_val) in E; rewrite byte_val_of in E by lia;
      vm_compute in E; congruence. }
  assert (Htx : forall z, noSeparator (utf8.tx z) = true).
  { intros z. apply high_noSeparator. rewrite tx_val. mod_lia. }
  destruct (r <? 2048) eqn:E2; bools.
  { cbn [all_bytes]. rewrite !Htx, !andb_true_r. apply high_noSeparator.
    rewrite shiftr_div by lia. change 192 with (3 * 2 ^ 6).
    change (2 ^ 6) with 64. change 64 with (2 ^ 6) at 1.
    rewrite lead_val; change (2 ^ 6) with 64; mod_lia. }
  destruct (r <? 65536) eqn:E3; bools.
  { cbn [all_bytes]. rewrite !Htx, !andb_true_r. apply high_noSeparator.
    rewrite shiftr_div by lia. change 224 with (14 * 2 ^ 4). change (2 ^ 12) with 4096.
    rewrite lead_val; change (2 ^ 4) with 16; mod_lia. }
  cbn [all_bytes]. rewrite !Htx, !andb_true_r. apply high_noSeparator.
  rewrite shiftr_div by lia. change 240 with (30 * 2 ^ 3). change (2 ^ 18) with 262144.
  rewrite lead_val; change (2 ^ 3) with 8; mod_lia.
Qed.

Lemma string_of_runes_noSeparator rs :
  Forall storedRune rs -> all_bytes noSeparator (utf8.string_of_runes rs) = true.
Proof.
  induction 1 as [|r rs Hr _ IH]; [reflexivity|].
  cbn [utf8.string_of_runes]. rewrite all_bytes_app, IH, EncodeRune_noSeparator by assumption.
  reflexivity.
Qed.

(** X4.  The qualifiers [parseSemver] returns hold neither [-] nor [+]:
    every separator of the tail is dropped, also one inside a prerelease
    such as [alpha-1]. *)
Theorem parseSemver_qualifiers_no_separator (s : string) (sem : semver) :
  parseSemver s = Return sem None ->
  all_bytes noSeparator (prerelease sem) = true /\
  all_bytes noSeparator (build sem) = true.
Proof.
  intros H. destruct (parseSemver_parsedForm s sem H)
    as (_ & _ & _ & pb & bb & -> & -> & Hp & Hb).
  split; now apply string_of_runes_noSeparator.
Qed.

Lemma parseSemver_qualifiers_no_separator_witness :
  all_bytes noSeparator (prerelease (mkSemver 1 2 3 "alpha1" "b")) = true /\
  all_bytes noSeparator (build (mkSemver 1 2 3 "alpha1" "b")) = true.
Proof.
  apply (parseSemver_qualifiers_no_separator "1.2.3+b-alpha-1"). reflexivity.
Defined.

(** ** Errors of parseSemver *)

Lemma ParseInt_error s v e :
  strconv.ParseInt s = (v, Some e) -> exists kind, e = NumError "ParseInt" s kind.
Proof.
  unfold strconv.ParseInt. destruct s as [|c t]; [intros H; inversion H; eauto|].
  destruct (if Ascii.eqb c "+" then _ else _) as [neg digits].
  destruct (strconv.ParseUint digits) as [un [[]|]]; cbv zeta.
  - intros H; inversion H; eauto.
  - destruct (negb neg && _); [intros H; inversion H; eauto|].
    destruct (neg && _); intros H; inversion H; eauto.
  - destruct (negb neg && _); [intros H; inversion H; eauto|].
    destruct (neg && _); intros H; inversion H; eauto.
Qed.

Lemma parseParts_error parts : forall i sem tail sem' e,
  prerelease sem = "" -> build sem = "" ->
  parseParts i parts sem tail = inl (sem', e) ->
  (exists part kind, e = NumError "ParseInt" part kind) /\
  prerelease sem' = "" /\ build sem' = "".
Proof.
  induction parts as [|p parts IH]; intros i sem tail sem' e Hp Hb H; [discriminate|].
  cbn [parseParts] in H.
  destruct (if Nat.eqb i 2 then splitTail p else (p, tail)) as [part tail'].
  destruct (strconv.ParseInt part) as [n [err|]] eqn:EP.
  - inversion H; subst. destruct (ParseInt_error _ _ _ EP) as [k ->]. eauto.
  - apply IH in H; [assumption| |];
      destruct i as [|[|[|i]]]; cbn; assumption.
Qed.

Lemma parseParts_keeps parts : forall i sem tail sem' tail',
  parseParts i parts sem tail = inr (sem', tail') ->
  prerelease sem' = prerelease sem /\ build sem' = build sem.
Proof.
  induction parts as [|p parts IH]; intros i sem tail sem' tail' H.
  - inversion H; subst. auto.
  - cbn [parseParts] in H.
    destruct (if Nat.eqb i 2 then splitTail p else (p, tail)) as [part tl].
    destruct (strconv.ParseInt part) as [n [err|]]; [discriminate|].
    apply IH in H. destruct H as [-> ->].
    destruct i as [|[|[|i]]]; cbn; auto.
Qed.

(** X5.  The only errors of [parseSemver] are [errInvalidSemver] and the
    errors of [strconv.ParseInt]; with an error come empty qualifiers. *)
Theorem parseSemver_errors (s : string) (sem : semver) (e : error) :
  parseSemver s = Return sem (Some e) ->
  (e = errInvalidSemver \/ exists part kind, e = NumError "ParseInt" part kind) /\
  prerelease sem = "" /\ build sem = "".
Proof.
  unfold parseSemver. destruct s as [|c0 s1]; [discriminate|].
  destruct (parseParts _ _ _ _) as [[sem0 e0]|[sem0 tail]] eqn:HP.
  - intros H; inversion H; subst.
    destruct (parseParts_error _ _ zeroSemver _ _ _ eq_refl eq_refl HP) as (He & Hp & Hb).
    auto.
  - destruct (parseParts_keeps _ _ _ _ _ _ HP) as [Hp Hb]. cbn in Hp, Hb.
    destruct tail as [|t0 tl]; [discriminate|].
    destruct (negb (Ascii.eqb t0 "-") && negb (Ascii.eqb t0 "+"))%bool.
    + intros H; inversion H; subst. auto.
    + destruct (scanTail _ _ _ _) as [[pb bb]|]; discriminate.
Qed.

Lemma parseSemver_errors_witness :
  (errInvalidSemver = errInvalidSemver \/
   exists part kind, errInvalidSemver = NumError "ParseInt" part kind) /\
  prerelease (mkSemver 1 2 3 "" "") = "" /\ build (mkSemver 1 2 3 "" "") = "".
Proof.
  apply (parseSemver_errors "v1.2.3.4"). reflexivity.
Defined.

Lemma opensQualifier_guard t0 tl :
  (negb (Ascii.eqb t0 "-") && negb (Ascii.eqb t0 "+"))%bool
  = negb (opensQualifier (String t0 tl)).
Proof. cbn. now rewrite negb_orb. Qed.

(** X6.  With three segments, [parseSemver] succeeds exactly when the first
    two segments and the leading digits of the third parse as integers and
    what follows those digits is nothing or starts with [-] or [+];
    otherwise, when the three numbers parse, the error is
    [errInvalidSemver]. *)
Theorem parseSemver_three (s a b c : string) :
  segments s = [a; b; c] ->
  ((exists sem, parseSemver s = Return sem None) <->
   parsesAsInt a /\ parsesAsInt b /\ parsesAsInt (digitPrefix c) /\
   opensQualifier (afterDigits c) = true) /\
  ((exists sem, parseSemver s = Return sem (Some errInvalidSemver)) <->
   parsesAsInt a /\ parsesAsInt b /\ parsesAsInt (digitPrefix c) /\
   opensQualifier (afterDigits c) = false).
Proof.
  intros E. unfold parsesAsInt.
  assert (Hs : s <> "") by (intros ->; discriminate).
  unfold parseSemver. destruct s as [|c0 s1]; [congruence|].
  change (strings.SplitN (if Ascii.eqb c0 "v" then s1 else String c0 s1) "." 3)
    with (segments (String c0 s1)).
  rewrite E. cbn [parseParts Nat.eqb]. rewrite splitTail_cut.
  destruct (strconv.ParseInt a) as [n [ea|]] eqn:Ea; cbn [snd].
  { destruct (ParseInt_error _ _ _ Ea) as [k ->].
    split; split; try (intros [sem H]; discriminate); intros (H & _); discriminate. }
  destruct (strconv.ParseInt b) as [m [eb|]] eqn:Eb; cbn [snd].
  { destruct (ParseInt_error _ _ _ Eb) as [k ->].
    split; split; try (intros [sem H]; discriminate); intros (_ & H & _); discriminate. }
  destruct (strconv.ParseInt (digitPrefix c)) as [p [ec|]] eqn:Ec; cbn [snd].
  { destruct (ParseInt_error _ _ _ Ec) as [k ->].
    split; split; try (intros [sem H]; discriminate); intros (_ & _ & H & _); discriminate. }
  destruct (afterDigits c) as [|t0 tl] eqn:Et.
  { split; split; try (intros [sem H]; discriminate); cbn.
    - auto.
    - eauto.
    - intros (_ & _ & _ & H); discriminate. }
  rewrite (opensQualifier_guard t0 tl).
  destruct (opensQualifier (String t0 tl)) eqn:Eo; cbn [negb].
  - pose proof (scanTail_sep t0 tl) as Hn. rewrite (opensQualifier_guard t0 tl), Eo in Hn.
    specialize (Hn eq_refl).
    destruct (scanTail _ _ _ _) as [[pb bb]|]; [|congruence].
    split; split; try (intros [sem H]; discriminate); eauto.
    intros (_ & _ & _ & H); discriminate.
  - split; split; try (intros [sem H]; discriminate); eauto.
    intros (_ & _ & _ & H); discriminate.
Qed.

Lemma parseSemver_three_witness :
  exists sem, parseSemver "v1.2.3rc1" = Return sem (Some errInvalidSemver).
Proof.
  apply (proj2 (proj2 (parseSemver_three "v1.2.3rc1" "1" "2" "3rc1" eq_refl))).
  repeat split.
Defined.

(** ** bump and the order of versions *)

(** X7.  A bump of a version with non-negative numbers gives a version that
    comes strictly later, with non-negative numbers, as long as the number
    it increments is below the largest [int]. *)
Theorem bump_precedes (sem : semver) (v : version.t) :
  isKind v ->
  0 <= major sem <= maxInt64 -> 0 <= minor sem <= maxInt64 -> 0 <= patch sem <= maxInt64 ->
  bumped sem v < maxInt64 ->
  precedes sem (bump sem v) /\
  0 <= major (bump sem v) <= maxInt64 /\
  0 <= minor (bump sem v) <= maxInt64 /\
  0 <= patch (bump sem v) <= maxInt64.
Proof.
  intros Hk HM Hm Hp Hb. unfold precedes, bumped in *.
  destruct Hk as [ -> | [ -> | -> ] ]; cbn in *;
    rewrite wrapInt_succ by (unfold minInt64, maxInt64 in *; lia);
    unfold maxInt64 in *; lia.
Qed.

Lemma bump_precedes_witness :
  precedes (mkSemver 1 2 3 "rc1" "") (bump (mkSemver 1 2 3 "rc1" "") version.minor).
Proof.
  apply (bump_precedes (mkSemver 1 2 3 "rc1" "") version.minor);
    unfold isKind, maxInt64; cbn; auto; lia.
Defined.

(** ** Runs of [release]: qualifiers and clean-up *)

Lemma bump_clears sem v : prerelease (bump sem v) = "" /\ build (bump sem v) = "".
Proof.
  unfold bump. destruct (N.eqb v version.patch), (N.eqb v version.minor),
    (N.eqb v version.major); split; reflexivity.
Qed.

(** X8.  A successful [release] returns a version whose prerelease is the
    one asked for and whose build is empty unless build metadata was
    asked for: no qualifier of the previous tag is carried over. *)
Theorem release_qualifiers (w : world) (next : version.t) (info : bool)
  (label : string) (sem : semver) (tr : list event) :
  release w next info label = (Return sem None, tr) ->
  prerelease sem = label /\
  build sem = (if info then dropLast (stdout (captured w logArgs)) else "").
Proof.
  paths; intros H; inversion H; subst; clear H;
    cbn [prerelease build set_prerelease set_build];
    split; try reflexivity; apply bump_clears.
Qed.

Lemma release_qualifiers_witness :
  prerelease (mkSemver 0 1 0 "rc1" "") = "rc1" /\
  build (mkSemver 0 1 0 "rc1" "") = "".
Proof.
  apply (release_qualifiers
           (exampleWorld "Notes" (mkProc None ("v0.0.2-alpha+1a2b3c4" ++ String LF "") "")
              silent silent)
           version.minor false "rc1" _
           (snd (release
                   (exampleWorld "Notes"
                      (mkProc None ("v0.0.2-alpha+1a2b3c4" ++ String LF "") "")
                      silent silent) version.minor false "rc1"))).
  reflexivity.
Defined.

(** X9.  Whatever happens after the notes file was created (an error, a
    panic, success), the last two things [release] does are to close and to
    remove that file. *)
Theorem release_removes_notes_file (w : world) (next : version.t) (info : bool)
  (label f : string) :
  CreateTemp w "release-*" = inl f ->
  exists tr0,
    snd (release w next info label) = (tr0 ++ [EvClose f; EvRemove f])%list.
Proof.
  intros Hf. paths; inversion Hf; subst;
    match goal with
    | |- exists tr0, ?tr = _ => exists (removelast (removelast tr)); reflexivity
    end.
Qed.

Lemma release_removes_notes_file_witness :
  exists tr0,
    snd (release (exampleWorld "Notes" (mkProc None "" "") silent silent)
           version.patch false "")
    = (tr0 ++ [EvClose "/tmp/release-*"; EvRemove "/tmp/release-*"])%list.
Proof.
  apply (release_removes_notes_file
           (exampleWorld "Notes" (mkProc None "" "") silent silent)).
  reflexivity.
Defined.

(** X10.  The temporary file of [gitshortlog] is removed only when
    [git shortlog] succeeded: when it fails, the file is left behind. *)
Theorem release_leaves_changelog_file (w : world) (next : version.t) (info : bool)
  (label c : string) :
  CreateTemp w "release-changelog-*" = inl c ->
  CreateTemp w "release-*" <> inl c ->
  (forall revrange, run_err (captured w ["git"; "shortlog"; revrange]) <> None) ->
  ~ In (EvRemove c) (snd (release w next info label)).
Proof.
  intros Hc Hf Hfail. paths;
    try match goal with
    | H : run_err (captured w ["git"; "shortlog"; _]) = None |- _ =>
        exfalso; exact (Hfail _ H)
    end;
    intros Hin; cbn [In] in Hin;
    repeat (destruct Hin as [Hin|Hin]; try discriminate Hin); try contradiction;
    inversion Hin; subst; congruence.
Qed.

Lemma release_leaves_changelog_file_witness :
  ~ In (EvRemove "/tmp/release-changelog-*")
      (snd (release shortlogFails version.patch false "")).
Proof.
  apply (release_leaves_changelog_file shortlogFails version.patch false ""
           "/tmp/release-changelog-*").
  - reflexivity.
  - discriminate.
  - intros revrange. discriminate.
Defined.

(** X11.  [git archive] is only run on a tag that [git tag] has just created
    without error, and the archive is named after that tag. *)
Theorem release_archives_the_tag (w : world) (next : version.t) (info : bool)
  (label out tag : string) :
  In (EvCaptured ["git"; "archive"; "-o"; out; tag]) (snd (release w next info label)) ->
  out = tag ++ ".tar.gz" /\
  exists f message,
    In (EvTerminal (tagArgs tag f) message) (snd (release w next info label)) /\
    run_err (fst (terminal w (tagArgs tag f) message)) = None.
Proof.
  paths; intros Hin; cbn [In] in Hin;
    repeat (destruct Hin as [Hin|Hin]; try discriminate Hin); try contradiction;
    inversion Hin; subst; (split; [reflexivity|]);
    do 2 eexists; (split; [cbn [In]; eauto 12|eassumption]).
Qed.

Lemma release_archives_the_tag_witness :
  "v0.0.1.tar.gz" = "v0.0.1" ++ ".tar.gz" /\
  exists f message,
    In (EvTerminal (tagArgs "v0.0.1" f) message)
       (snd (release (exampleWorld "Notes" noNames silent silent) version.patch false "")) /\
    run_err (fst (terminal (exampleWorld "Notes" noNames silent silent)
                    (tagArgs "v0.0.1" f) message)) = None.
Proof.
  apply (release_archives_the_tag (exampleWorld "Notes" noNames silent silent)
           version.patch false "").
  cbn. auto 12.
Defined.

(** X12.  Without [EDITOR], [release] runs no subprocess at all: it creates
    the notes file, returns the error and removes the file. *)
Theorem release_without_editor (w : world) (next : version.t) (info : bool)
  (label f : string) :
  CreateTemp w "release-*" = inl f -> Getenv w "EDITOR" = "" ->
  release w next info label
  = (Return zeroSemver (Some (errorsNew "EDITOR not set")),
     [EvCreateTemp "release-*"; EvClose f; EvRemove f]).
Proof.
  intros Hf He. unfold_release. rewrite Hf. cbn. rewrite He. reflexivity.
Qed.

Lemma release_without_editor_witness :
  release noEditor version.major true "rc1"
  = (Return zeroSemver (Some (errorsNew "EDITOR not set")),
     [EvCreateTemp "release-*"; EvClose "/tmp/release-*"; EvRemove "/tmp/release-*"]).
Proof.
  apply (release_without_editor noEditor); reflexivity.
Defined.

(** A line without newline is read into [cur] as it is. *)
Lemma scanFrom_line line : forall rest cur,
  hasNoLF line = true ->
  bufio.scanFrom (line ++ rest) cur = bufio.scanFrom rest (cur ++ line).
Proof.
  induction line as [|c t IH]; intros rest cur H.
  - cbn [append]. now rewrite append_nil_r.
  - unfold hasNoLF in H. cbn [all_bytes] in H. apply andb_true_iff in H.
    destruct H as [Hc Ht]. apply negb_true_iff in Hc.
    cbn [append bufio.scanFrom]. rewrite Hc, (IH _ _ Ht), append_assoc. reflexivity.
Qed.

Lemma tooLong_nonempty line : bufio.tooLong line = true -> is_empty line = false.
Proof. destruct line; [discriminate|reflexivity]. Qed.

Lemma scan_long_first line after :
  hasNoLF line = true -> bufio.tooLong line = true -> endsLine after ->
  snd (bufio.scanFrom (line ++ after) "") = Some bufio.ErrTooLong.
Proof.
  intros Hn Hl Ha. rewrite scanFrom_line by assumption. cbn [append].
  destruct Ha as [->|[t ->]]; cbn [bufio.scanFrom].
  - now rewrite (tooLong_nonempty _ Hl), Hl.
  - change (Ascii.eqb LF LF) with true. cbv iota. now rewrite Hl.
Qed.

Lemma scan_long_later b x : forall cur,
  snd (bufio.scanFrom x "") = Some bufio.ErrTooLong ->
  snd (bufio.scanFrom (b ++ String LF x) cur) = Some bufio.ErrTooLong.
Proof.
  induction b as [|c t IH]; intros cur Hx; cbn [append bufio.scanFrom].
  - change (Ascii.eqb LF LF) with true. cbv iota.
    destruct (bufio.tooLong cur); [reflexivity|].
    destruct (bufio.scanFrom x "") as [ls e]. exact Hx.
  - destruct (Ascii.eqb c LF).
    + destruct (bufio.tooLong cur); [reflexivity|].
      specialize (IH "" Hx). destruct (bufio.scanFrom (t ++ String LF x) "") as [ls e].
      exact IH.
    + now apply IH.
Qed.

(** A line of 65536 bytes or more, anywhere in the text, ends the scan with
    [ErrTooLong]. *)
Lemma ScanLines_too_long before line after :
  wholeLines before -> hasNoLF line = true -> bufio.tooLong line = true ->
  endsLine after ->
  snd (bufio.ScanLines (before ++ line ++ after)) = Some bufio.ErrTooLong.
Proof.
  intros Hb Hn Hl Ha. unfold bufio.ScanLines.
  pose proof (scan_long_first line after Hn Hl Ha) as H.
  destruct Hb as [->|[b ->]]; [exact H|].
  rewrite append_assoc. cbn [append]. now apply scan_long_later.
Qed.

Lemma is_empty_false s : s <> "" -> is_empty s = false.
Proof. destruct s; [congruence|reflexivity]. Qed.

(** X13.  When the notes cannot be collected, [release] returns the zero
    version with the error and has run no [git] command.  This is so when
    the temporary file cannot be created (nothing else happens), when
    [EDITOR] is empty, when the editor's run fails, and when the file read
    back has a line of 65536 bytes or more: then all [release] did was to
    create the notes file, run the editor on it (if there is one), close it
    and remove it. *)
Theorem release_notes_failure (w : world) (next : version.t) (info : bool)
  (label : string) :
  (forall err,
     CreateTemp w "release-*" = inr err ->
     release w next info label
     = (Return zeroSemver (Some err), [EvCreateTemp "release-*"])) /\
  (forall f,
     CreateTemp w "release-*" = inl f -> Getenv w "EDITOR" = "" ->
     release w next info label
     = (Return zeroSemver (Some (errorsNew "EDITOR not set")),
        [EvCreateTemp "release-*"; EvClose f; EvRemove f])) /\
  (forall f p edited err,
     CreateTemp w "release-*" = inl f -> Getenv w "EDITOR" <> "" ->
     terminal w [Getenv w "EDITOR"; f] notesPreamble = (p, edited) ->
     run_err p = Some err ->
     release w next info label
     = (Return zeroSemver (Some err),
        [EvCreateTemp "release-*"; EvTerminal [Getenv w "EDITOR"; f] notesPreamble;
         EvClose f; EvRemove f])) /\
  (forall f p before line after,
     CreateTemp w "release-*" = inl f -> Getenv w "EDITOR" <> "" ->
     terminal w [Getenv w "EDITOR"; f] notesPreamble = (p, before ++ line ++ after) ->
     run_err p = None ->
     wholeLines before -> hasNoLF line = true -> bufio.tooLong line = true ->
     endsLine after ->
     release w next info label
     = (Return zeroSemver (Some bufio.ErrTooLong),
        [EvCreateTemp "release-*"; EvTerminal [Getenv w "EDITOR"; f] notesPreamble;
         EvClose f; EvRemove f])).
Proof.
  split; [|split; [|split]].
  - intros err Hf. unfold_release. rewrite Hf. reflexivity.
  - intros f Hf He. unfold_release. rewrite Hf. cbn. rewrite He. reflexivity.
  - intros f p edited err Hf He Ht Hr. apply is_empty_false in He.
    unfold_release. rewrite Hf. cbn. rewrite He. cbn. rewrite Ht. cbn.
    rewrite Hr. reflexivity.
  - intros f p before line after Hf He Ht Hr Hb Hn Hl Ha. apply is_empty_false in He.
    pose proof (ScanLines_too_long before line after Hb Hn Hl Ha) as Hs.
    unfold_release. rewrite Hf. cbn. rewrite He. cbn. rewrite Ht. cbn.
    rewrite Hr. destruct (bufio.ScanLines (before ++ line ++ after)) as [ls e].
    cbn [snd] in Hs. rewrite Hs. reflexivity.
Qed.

Lemma release_notes_failure_witness :
  release noTempWorld version.patch true ""
  = (Return zeroSemver (Some (PathError "open /tmp/release-1: no space left on device")),
     [EvCreateTemp "release-*"]) /\
  release noEditor version.patch true ""
  = (Return zeroSemver (Some (errorsNew "EDITOR not set")),
     [EvCreateTemp "release-*"; EvClose "/tmp/release-*"; EvRemove "/tmp/release-*"]) /\
  release editorFails version.patch true ""
  = (Return zeroSemver (Some (ExitError "exit status 1")),
     [EvCreateTemp "release-*"; EvTerminal ["vi"; "/tmp/release-*"] notesPreamble;
      EvClose "/tmp/release-*"; EvRemove "/tmp/release-*"]) /\
  release longLineWorld version.patch true ""
  = (Return zeroSemver (Some bufio.ErrTooLong),
     [EvCreateTemp "release-*"; EvTerminal ["vi"; "/tmp/release-*"] notesPreamble;
      EvClose "/tmp/release-*"; EvRemove "/tmp/release-*"]).
Proof.
  split; [|split; [|split]].
  - apply (proj1 (release_notes_failure noTempWorld version.patch true "")).
    reflexivity.
  - apply (proj1 (proj2 (release_notes_failure noEditor version.patch true ""))).
    + reflexivity.
    + reflexivity.
  - apply (proj1 (proj2 (proj2 (release_notes_failure editorFails version.patch true "")))
             "/tmp/release-*" (failed "exit status 1" "") notesPreamble).
    + reflexivity.
    + discriminate.
    + reflexivity.
    + reflexivity.
  - apply (proj2 (proj2 (proj2 (release_notes_failure longLineWorld version.patch true "")))
             "/tmp/release-*" silent (preambleBody ++ String LF "") longLine "").
    + reflexivity.
    + discriminate.
    + reflexivity.
    + reflexivity.
    + right. exists preambleBody. reflexivity.
    + vm_compute. reflexivity.
    + vm_compute. reflexivity.
    + left. reflexivity.
Defined.

(** X14.  When [release] succeeds it has done this, in this order: created
    the notes file, run the editor on it, run [git describe], run
    [git log] if build metadata was asked for, created the changelog file,
    run [git shortlog] on the range of the changelog, run [git tag] on the
    rendering of the version it returns, run [git archive] on it with
    that rendering followed by [.tar.gz] as output, and closed and removed
    both files.  When [git tag] starts, what [release] has written into the
    notes file it holds open is: the lines it read back from that file
    that do not start with [#], each with its newline, then the changelog
    header, then the output of [git shortlog]. *)
Theorem release_success (w : world) (next : version.t) (info : bool)
  (label : string) (sem : semver) (tr : list event) :
  release w next info label = (Return sem None, tr) ->
  exists f c p edited,
    CreateTemp w "release-*" = inl f /\
    CreateTemp w "release-changelog-*" = inl c /\
    terminal w [Getenv w "EDITOR"; f] notesPreamble = (p, edited) /\
    tr = ([EvCreateTemp "release-*";
           EvTerminal [Getenv w "EDITOR"; f] notesPreamble;
           EvCaptured describeArgs]
          ++ (if info then [EvCaptured logArgs] else [])
          ++ [EvCreateTemp "release-changelog-*";
              EvCaptured ["git"; "shortlog"; changelogRange w];
              EvTerminal (tagArgs (String_ sem) f)
                (unlines (filter (fun l => negb (String.prefix "#" l))
                            (fst (bufio.ScanLines edited)))
                 ++ changelogHeader
                 ++ stdout (captured w ["git"; "shortlog"; changelogRange w]))%string;
              EvCaptured ["git"; "archive"; "-o"; (String_ sem ++ ".tar.gz")%string;
                          String_ sem];
              EvClose c; EvRemove c; EvClose f; EvRemove f])%list.
Proof.
  unfold changelogRange.
  paths; intros H; inversion H; subst; clear H.
  all: match goal with
       | Hf : CreateTemp _ "release-*" = inl ?f,
         Hc : CreateTemp _ "release-changelog-*" = inl ?c,
         Ht : terminal _ [Getenv _ "EDITOR"; ?f] notesPreamble = (?p, ?edited),
         Hs : bufio.ScanLines ?edited = (?l, None) |- _ =>
           exists f, c, p, edited; rewrite Hs, <- collectNotes_unlines;
           repeat (split; [first [reflexivity | assumption]|]); reflexivity
       end.
Qed.

Lemma release_success_witness :
  exists f c p edited,
    CreateTemp (exampleWorld userNotes noNames shortHash silent) "release-*" = inl f /\
    CreateTemp (exampleWorld userNotes noNames shortHash silent) "release-changelog-*"
    = inl c /\
    terminal (exampleWorld userNotes noNames shortHash silent) ["vi"; f] notesPreamble
    = (p, edited) /\
    snd (release (exampleWorld userNotes noNames shortHash silent) version.patch true "rc1")
    = [EvCreateTemp "release-*";
       EvTerminal ["vi"; f] notesPreamble;
       EvCaptured describeArgs;
       EvCaptured logArgs;
       EvCreateTemp "release-changelog-*";
       EvCaptured ["git"; "shortlog"; "HEAD"];
       EvTerminal (tagArgs "v0.0.1-rc1+1a2b3c4" f)
         ("First release." ++ String LF (String LF ("Thanks." ++ String LF changelogHeader)));
       EvCaptured ["git"; "archive"; "-o"; "v0.0.1-rc1+1a2b3c4.tar.gz"; "v0.0.1-rc1+1a2b3c4"];
       EvClose c; EvRemove c; EvClose f; EvRemove f].
Proof.
  destruct (release_success (exampleWorld userNotes noNames shortHash silent)
              version.patch true "rc1" (mkSemver 0 0 1 "rc1" "1a2b3c4")
              (snd (release (exampleWorld userNotes noNames shortHash silent)
                      version.patch true "rc1")))
    as (f & c & p & edited & Hf & Hc & Ht & Htr); [vm_compute; reflexivity|].
  exists f, c, p, edited.
  inversion Hf; subst f. inversion Hc; subst c. inversion Ht; subst p edited.
  repeat (split; [reflexivity|]). vm_compute. reflexivity.
Defined.

Lemma parseSemver_panic_empty s : (exists msg, parseSemver s = Panic msg) -> s = "".
Proof.
  intros [msg H]. destruct s as [|c t]; [reflexivity|].
  destruct (parseSemver_nonempty_returns (String c t)) as (sem & err & E);
    [discriminate|congruence].
Qed.

(** X15.  [release] panics only when [git describe] succeeds and prints
    nothing, or nothing but a newline. *)
Theorem release_panics_only_on_empty_tag (w : world) (next : version.t) (info : bool)
  (label msg : string) (tr : list event) :
  release w next info label = (Panic msg, tr) ->
  run_err (captured w describeArgs) = None /\
  strings.TrimSuffix (stdout (captured w describeArgs)) LF = "".
Proof.
  paths; intros H; inversion H; subst; clear H.
  all: split; [reflexivity|].
  all: match goal with
       | HP : parseSemver ?s = Panic _ |- ?s = "" =>
           apply parseSemver_panic_empty; eauto
       end.
Qed.

Lemma release_panics_only_on_empty_tag_witness :
  run_err (captured (exampleWorld "Notes" (mkProc None "" "") silent silent) describeArgs)
  = None /\
  strings.TrimSuffix
    (stdout (captured (exampleWorld "Notes" (mkProc None "" "") silent silent) describeArgs))
    LF = "".
Proof.
  apply (release_panics_only_on_empty_tag
           (exampleWorld "Notes" (mkProc None "" "") silent silent)
           version.patch false "" "index out of range [0] with length 0"
           (snd (release (exampleWorld "Notes" (mkProc None "" "") silent silent)
                   version.patch false ""))).
  reflexivity.
Defined.

(** X16.  When [git describe] prints a tag that [parseSemver] accepts, a
    successful [release] returns the bump of that tag's version with the
    qualifiers asked for, and the changelog is taken from that tag to
    [HEAD]. *)
Theorem release_from_tag (w : world) (next : version.t) (info : bool)
  (label tag : string) (old sem : semver) (tr : list event) :
  run_err (captured w describeArgs) = None ->
  stdout (captured w describeArgs) = tag ++ String LF "" ->
  parseSemver tag = Return old None ->
  release w next info label = (Return sem None, tr) ->
  sem = set_build (set_prerelease (bump old next) label)
          (if info then dropLast (stdout (captured w logArgs)) else "") /\
  In (EvCaptured ["git"; "shortlog"; tag ++ "..HEAD"]) tr.
Proof.
  intros Hd Ho Hp. 
  assert (HP : parseSemver (strings.TrimSuffix (stdout (captured w describeArgs)) LF)
               = Return old None).
  { rewrite Ho, TrimSuffix_snoc. exact Hp. }
  assert (HT : strings.TrimSuffix (stdout (captured w describeArgs)) LF = tag).
  { rewrite Ho. apply TrimSuffix_snoc. }
  revert Hd HP HT. clear Ho Hp.
  paths; intros Hd HP HT H; try discriminate Hd; try discriminate HP;
    inversion H; subst; clear H; inversion HP; subst;
    (split; [destruct (bump_clears old next) as [_ Hb];
             destruct (bump old next); cbn in *; subst; reflexivity|]);
    cbn [In]; solve [repeat (first [left; reflexivity | right])].
Qed.

Lemma release_from_tag_witness :
  mkSemver 1 0 0 "rc1" "" =
  set_build (set_prerelease (bump (mkSemver 0 0 2 "alpha" "1a2b3c4") version.major) "rc1") "".
Proof.
  pose (w := exampleWorld "Notes"
               (mkProc None ("v0.0.2-alpha+1a2b3c4" ++ String LF "") "") silent silent).
  destruct (release_from_tag w version.major false "rc1" "v0.0.2-alpha+1a2b3c4"
              (mkSemver 0 0 2 "alpha" "1a2b3c4") (mkSemver 1 0 0 "rc1" "")
              (snd (release w version.major false "rc1"))
              eq_refl eq_refl eq_refl eq_refl) as [H _].
  exact H.
Defined.

Lemma Cut_spec s sep a b :
  strings.Cut s sep = Some (a, b) ->
  s = a ++ String sep b /\ all_bytes (fun c => negb (Ascii.eqb c sep)) a = true.
Proof.
  revert a b. induction s as [|c t IH]; intros a b H; [discriminate|].
  cbn [strings.Cut] in H. destruct (Ascii.eqb c sep) eqn:E.
  - inversion H; subst. apply Ascii.eqb_eq in E. subst. auto.
  - destruct (strings.Cut t sep) as [[a' b']|]; [|discriminate].
    inversion H; subst. destruct (IH _ _ eq_refl) as [-> Ha].
    split; [reflexivity|]. cbn [all_bytes]. now rewrite E, Ha.
Qed.

Lemma Cut_none_spec s sep :
  strings.Cut s sep = None -> all_bytes (fun c => negb (Ascii.eqb c sep)) s = true.
Proof.
  induction s as [|c t IH]; [reflexivity|]. cbn [strings.Cut all_bytes].
  destruct (Ascii.eqb c sep); [discriminate|].
  destruct (strings.Cut t sep) as [[a b]|]; [discriminate|]. auto.
Qed.

Lemma firstLine_spec s :
  hasNoLF (firstLine s) = true /\
  (s = firstLine s \/ exists rest, s = firstLine s ++ String LF rest).
Proof.
  unfold firstLine, strings.Split, hasNoLF.
  destruct s as [|c t]; [cbn; auto|].
  cbn [String.length strings.genSplit].
  destruct (strings.Cut (String c t) LF) as [[a b]|] eqn:E; cbn [hd].
  - apply Cut_spec in E. destruct E as [E Ha]. split; [assumption|]. right. eauto.
  - apply Cut_none_spec in E. auto.
Qed.

(** X17.  [git] returns the captured output and no error, or, on a failed
    run, no output and as error one line free of newlines: the diagnostic
    up to its first newline. *)
Theorem git_result (w : world) (a : list string) (st : pstate) :
  match run_err (captured w ("git" :: a)) with
  | None => fst (git w a st) = Next (stdout (captured w ("git" :: a)), None)
  | Some _ =>
      exists line,
        fst (git w a st) = Next ("", Some (errorsNew line)) /\
        hasNoLF line = true /\
        (stderr (captured w ("git" :: a)) = line \/
         exists rest, stderr (captured w ("git" :: a)) = line ++ String LF rest)
  end.
Proof.
  unfold git, bind, emit, ret. cbn.
  destruct (run_err (captured w ("git" :: a))); [|reflexivity].
  eexists. split; [reflexivity|]. apply firstLine_spec.
Qed.

(** X18.  The preamble written into the notes file never reaches the notes:
    with the preamble left in front of what the user wrote, the collected
    notes are those of the user's text alone. *)
Theorem preamble_is_stripped (user : string) :
  collectNotes (fst (bufio.ScanLines (notesPreamble ++ user))) ""
  = collectNotes (fst (bufio.ScanLines user)) "" /\
  snd (bufio.ScanLines (notesPreamble ++ user)) = snd (bufio.ScanLines user).
Proof.
  unfold bufio.ScanLines, notesPreamble.
  cbn [append].
  repeat (cbn [bufio.scanFrom Ascii.eqb Bool.eqb LF append];
          match goal with
          | |- context [bufio.tooLong ?c] =>
              replace (bufio.tooLong c) with false by (vm_compute; reflexivity)
          end).
  destruct (bufio.scanFrom user "") as [ls e]. split; reflexivity.
Qed.

(** ** main *)

(** X19.  [main] touches nothing unless its first argument is exactly
    [major], [minor] or [patch]: otherwise it ends with status 1 and no
    event. *)
Theorem main_bad_usage (quote : string -> string) (w : world) (argv0 : string)
  (info : bool) (args : list string) :
  (forall kind rest, args = kind :: rest ->
                     kind <> "major" /\ kind <> "minor" /\ kind <> "patch") ->
  ending_ (main quote w argv0 info args) = Exit 1 /\
  events (main quote w argv0 info args) = [].
Proof.
  intros H. destruct args as [|kind rest]; [split; reflexivity|].
  destruct (H kind rest eq_refl) as (H1 & H2 & H3).
  unfold main, kindOf.
  apply String.eqb_neq in H1, H2, H3. rewrite H1, H2, H3. split; reflexivity.
Qed.

Lemma main_bad_usage_witness :
  ending_ (main (fun s => s) noEditor "release" false ["Major"; "rc1"]) = Exit 1 /\
  events (main (fun s => s) noEditor "release" false ["Major"; "rc1"]) = [].
Proof.
  apply (main_bad_usage (fun s => s) noEditor "release" false ["Major"; "rc1"]).
  intros kind rest H. inversion H; subst. repeat split; discriminate.
Defined.

(** X20.  Once the flags are parsed ([fs.Parse] has returned): when [main]
    ends with status 0, the one line [main] has printed is the tag that
    [git tag] created and that [git archive] packed, and [main] has written
    nothing to the standard error.  The standard output holds what the
    editor and [git tag] wrote there and then that line; the standard
    error holds only what the editor and [git tag] wrote there. *)
Theorem main_prints_the_tag (quote : string -> string) (w : world) (argv0 : string)
  (info : bool) (args : list string) :
  ending_ (main quote w argv0 info args) = Exit 0 ->
  exists tag f message,
    printed (main quote w argv0 info args) = tag ++ String LF "" /\
    complained (main quote w argv0 info args) = "" /\
    In (EvTerminal (tagArgs tag f) message) (events (main quote w argv0 info args)) /\
    In (EvCaptured ["git"; "archive"; "-o"; tag ++ ".tar.gz"; tag])
       (events (main quote w argv0 info args)) /\
    standardOutput w (main quote w argv0 info args)
    = stdout (fst (terminal w [Getenv w "EDITOR"; f] notesPreamble))
      ++ stdout (fst (terminal w (tagArgs tag f) message))
      ++ tag ++ String LF "" /\
    standardError w (main quote w argv0 info args)
    = stderr (fst (terminal w [Getenv w "EDITOR"; f] notesPreamble))
      ++ stderr (fst (terminal w (tagArgs tag f) message)).
Proof.
  unfold main, standardOutput, standardError, terminalRuns.
  destruct args as [|kind rest]; [discriminate|].
  destruct (kindOf kind) as [v|]; [|discriminate].
  set (label := match rest with label :: _ => label | [] => "" end). clearbody label.
  paths; cbn [ending_ printed complained events]; intros H; try discriminate H;
    do 3 eexists; (split; [reflexivity|]); (split; [reflexivity|]);
    (split; [cbn [In]; solve [repeat (first [left; reflexivity | right])]|]);
    (split; [cbn [In]; solve [repeat (first [left; reflexivity | right])]|]);
    cbn [flat_map app fold_right]; rewrite append_nil_r; split; reflexivity.
Qed.

Lemma main_prints_the_tag_witness :
  exists tag f message,
    printed (main (fun s => s) readmeWorld "release" true ["patch"; "alpha"])
    = tag ++ String LF "" /\
    complained (main (fun s => s) readmeWorld "release" true ["patch"; "alpha"]) = "" /\
    In (EvTerminal (tagArgs tag f) message)
       (events (main (fun s => s) readmeWorld "release" true ["patch"; "alpha"])) /\
    In (EvCaptured ["git"; "archive"; "-o"; tag ++ ".tar.gz"; tag])
       (events (main (fun s => s) readmeWorld "release" true ["patch"; "alpha"])) /\
    standardOutput readmeWorld
      (main (fun s => s) readmeWorld "release" true ["patch"; "alpha"])
    = stdout (fst (terminal readmeWorld [Getenv readmeWorld "EDITOR"; f] notesPreamble))
      ++ stdout (fst (terminal readmeWorld (tagArgs tag f) message))
      ++ tag ++ String LF "" /\
    standardError readmeWorld
      (main (fun s => s) readmeWorld "release" true ["patch"; "alpha"])
    = stderr (fst (terminal readmeWorld [Getenv readmeWorld "EDITOR"; f] notesPreamble))
      ++ stderr (fst (terminal readmeWorld (tagArgs tag f) message)).
Proof.
  apply (main_prints_the_tag (fun s => s) readmeWorld "release" true ["patch"; "alpha"]).
  reflexivity.
Defined.
